(** * editorview: markup tokenizer, flattener, search/replace, cursor and undo

    A shallow embedding of the final iteration of the editor engine
    (package editorview, [src/editor.go] lines 828-1933) together with the
    statements checked against it.

    Conventions of the embedding.
    - A Go [rune] is a [Z]; a Go [int] is a [Z] as well.  Every integer the
      engine computes is a length, an index or an index plus or minus a few
      units, so no computation comes near the 64-bit limits and the
      wrap-around is not written out.
    - Inside the engine, text is modelled by its sequence of code points: a
      Go [string] and the [[]rune] obtained from it are the same [list rune],
      and the conversions [string(rs)] and [[]rune(s)] are the identity.  This
      is exact for valid UTF-8 text, which is all the raw buffer ever holds
      (it is filled from [[]rune(string)] conversions only).
    - A string that comes from outside is a sequence of bytes, valid UTF-8
      or not.  Module [Utf8] gives the two conversions of the language on
      bytes and module [GoString] the functions of the package that take or
      return such a string.
    - Offsets returned by the [regexp] package are counted in runes.  The
      source turns every byte offset [i] it gets into
      [len([]rune(searchString[:i]))], which is that rune offset.
    - A run-time panic of Go and the exhaustion of the fuel that bounds the
      loops of the embedding are explicit results. *)

From Stdlib Require Import String Ascii.
From Stdlib Require Import ZArith List Lia Bool.
Import ListNotations.
Local Open Scope Z_scope.

Set Implicit Arguments.

(** ** Text *)

Definition rune := Z.

Definition chr (c : ascii) : rune := Z.of_N (N_of_ascii c).

Fixpoint runes (s : string) : list rune :=
  match s with
  | EmptyString => []
  | String c s' => chr c :: runes s'
  end.

Fixpoint eqb_runes (a b : list rune) : bool :=
  match a, b with
  | [], [] => true
  | x :: a', y :: b' => (x =? y) && eqb_runes a' b'
  | _, _ => false
  end.

Definition newline : rune := 10.

(** Slice helpers: [l[:n]] and [l[n:]] for an offset already known to be in
    range. *)
Definition upto {A} (n : nat) (l : list A) : list A := firstn n l.
Definition from {A} (n : nat) (l : list A) : list A := skipn n l.

Definition len {A} (l : list A) : Z := Z.of_nat (length l).

(** [l[i]] for a Go [int] index: [None] stands for the index-out-of-range
    panic. *)
Definition index {A} (l : list A) (i : Z) : option A :=
  if i <? 0 then None else nth_error l (Z.to_nat i).

(** ** The pieces of package [strings] the engine calls *)

Module Strings.

Fixpoint HasPrefix (s prefix : list rune) : bool :=
  match prefix, s with
  | [], _ => true
  | p :: prefix', c :: s' => (c =? p) && HasPrefix s' prefix'
  | _ :: _, [] => false
  end.

(** [strings.Split(s, sep)] for a separator of one rune. *)
Fixpoint Split (s : list rune) (sep : rune) : list (list rune) :=
  match s with
  | [] => [[]]
  | c :: s' =>
      if c =? sep then [] :: Split s' sep
      else match Split s' sep with
           | l :: ls => (c :: l) :: ls
           | [] => [[c]]
           end
  end.

(** [strings.ReplaceAll(s, old, new)]: the non-overlapping occurrences of
    [old], left to right.  [skip] counts the runes of an occurrence still
    to be dropped. *)
Fixpoint replaceFrom (s old new : list rune) (skip : nat) : list rune :=
  match s with
  | [] => []
  | c :: s' =>
      match skip with
      | S k => replaceFrom s' old new k
      | O => if HasPrefix s old
             then new ++ replaceFrom s' old new (length old - 1)
             else c :: replaceFrom s' old new O
      end
  end.

Definition ReplaceAll (s old new : list rune) : list rune :=
  match old with
  | [] => new ++ flat_map (fun c => c :: new) s
  | _ :: _ => replaceFrom s old new O
  end.

(** [strings.Count(s, sep)] for a separator of one rune. *)
Definition Count (s : list rune) (sep : rune) : Z :=
  len (filter (fun c => c =? sep) s).

End Strings.

(** ** Regular expressions

    The engine uses package [regexp] through [FindStringIndex],
    [FindStringSubmatch], [MatchString] and [ReplaceAllString].  [Regexp] is
    that interface as [replace] sees it; [MustCompile] gives the instances
    for the fragment of the syntax the editor's own patterns are written in
    (literals, classes, concatenation, alternation, greedy star, groups),
    with the leftmost-first meaning of Go's matcher. *)

Module Regex.

Inductive re :=
| Empty
| Lit (c : rune)
| Class (f : rune -> bool)
| Cat (a b : re)
| Alt (a b : re)
| Star (a : re)
| Group (n : nat) (a : re).

(** Capture positions, most recent first. *)
Definition caps := list (nat * (nat * nat)).

Section Run.
Variable A : Type.

(** [run r s i c k]: match [r] at offset [i], where [s] is the input
    from [i] on, and hand the rest to [k]; alternatives are tried in
    order and a star takes as many rounds as it can before giving
    back. *)
Fixpoint run (r : re) (s : list rune) (i : nat) (c : caps)
         (k : list rune -> nat -> caps -> option A) {struct r} : option A :=
  match r with
  | Empty => k s i c
  | Lit x =>
      match s with
      | y :: s' => if y =? x then k s' (S i) c else None
      | [] => None
      end
  | Class f =>
      match s with
      | y :: s' => if f y then k s' (S i) c else None
      | [] => None
      end
  | Cat a b => run a s i c (fun s' i' c' => run b s' i' c' k)
  | Alt a b =>
      match run a s i c k with
      | Some v => Some v
      | None => run b s i c k
      end
  | Star a =>
      (fix loop (n : nat) (s : list rune) (i : nat) (c : caps) {struct n}
         : option A :=
         match n with
         | O => k s i c
         | S n' =>
             match run a s i c
                     (fun s' i' c' =>
                        if (i <? i')%nat then loop n' s' i' c' else None)
             with
             | Some v => Some v
             | None => k s i c
             end
         end) (length s) s i c
  | Group g a => run a s i c (fun s' i' c' => k s' i' ((g, (i, i')) :: c'))
  end.
End Run.

(** Leftmost match: the first start offset at which [r] matches. *)
Fixpoint findFrom (r : re) (s : list rune) (i : nat)
  : option (nat * nat * caps) :=
  match run r s i [] (fun _ j c => Some (j, c)) with
  | Some (j, c) => Some (i, j, c)
  | None =>
      match s with
      | [] => None
      | _ :: s' => findFrom r s' (S i)
      end
  end.

Definition findIndex (r : re) (s : list rune) : option (nat * nat) :=
  match findFrom r s O with
  | Some (a, b, _) => Some (a, b)
  | None => None
  end.

Definition MatchString (r : re) (s : list rune) : bool :=
  match findFrom r s O with
  | Some _ => true
  | None => false
  end.

Fixpoint lookup (g : nat) (c : caps) : option (nat * nat) :=
  match c with
  | [] => None
  | (g', span) :: c' => if (g =? g')%nat then Some span else lookup g c'
  end.

Definition group (s : list rune) (c : caps) (g : nat) : list rune :=
  match lookup g c with
  | Some (a, b) => upto (b - a) (from a s)
  | None => []
  end.

(** [FindStringSubmatch] for a pattern with [n] groups: the whole match,
    then the text of each group. *)
Definition FindStringSubmatch (r : re) (n : nat) (s : list rune)
  : option (list (list rune)) :=
  match findFrom r s O with
  | Some (a, b, c) =>
      Some (upto (b - a) (from a s) :: map (group s c) (seq 1 n))
  | None => None
  end.

(** [ReplaceAllString(src, repl)] for a template [repl] without [$]: the
    loop of the library, which replaces each match in turn, never an empty
    match that touches the previous one, and moves on by at least one
    rune. *)
Fixpoint replaceLoop (fuel : nat) (r : re) (src repl : list rune)
         (searchPos lastMatchEnd : nat) (buf : list rune) : list rune :=
  match fuel with
  | O => buf ++ from lastMatchEnd src
  | S fuel' =>
      if (length src <? searchPos)%nat then buf ++ from lastMatchEnd src
      else
        match findFrom r (from searchPos src) searchPos with
        | None => buf ++ from lastMatchEnd src
        | Some (a0, a1, _) =>
            let buf1 := buf ++ upto (a0 - lastMatchEnd) (from lastMatchEnd src) in
            let buf2 :=
              if ((lastMatchEnd <? a1) || (a0 =? 0))%nat then buf1 ++ repl
              else buf1 in
            let width := if (searchPos <? length src)%nat then 1%nat else 0%nat in
            let searchPos' :=
              if (a1 <? searchPos + width)%nat then (searchPos + width)%nat
              else if (a1 <? searchPos + 1)%nat then S searchPos
              else a1 in
            replaceLoop fuel' r src repl searchPos' a1 buf2
        end
  end.

Definition replaceAll (r : re) (src repl : list rune) : list rune :=
  replaceLoop (length src + 2) r src repl O O [].

(** What [replace] needs of a compiled pattern. *)
Record Regexp := mkRegexp {
  FindStringIndex : list rune -> option (nat * nat);
  ReplaceAllString : list rune -> list rune -> list rune;
  FindStringIndex_range :
    forall s a b, FindStringIndex s = Some (a, b) ->
                  (a <= b <= length s)%nat
}.

Lemma run_inv (A : Type) (r : re) :
  forall s i c (k : list rune -> nat -> caps -> option A) v,
    run r s i c k = Some v ->
    exists s' i' c',
      k s' i' c' = Some v /\ (i <= i')%nat /\
      (i' + length s' = i + length s)%nat.
Proof.
  induction r as [ | x | f | a IHa b IHb | a IHa b IHb | a IHa | g a IHa ];
    intros s i c k v H; simpl in H.
  - exists s, i, c. repeat split; auto.
  - destruct s as [ | y s']; [discriminate | ].
    destruct (y =? x); [ | discriminate].
    exists s', (S i), c. simpl. repeat split; auto; lia.
  - destruct s as [ | y s']; [discriminate | ].
    destruct (f y); [ | discriminate].
    exists s', (S i), c. simpl. repeat split; auto; lia.
  - apply IHa in H. destruct H as (s1 & i1 & c1 & H & Hi & Hl).
    apply IHb in H. destruct H as (s2 & i2 & c2 & H & Hi2 & Hl2).
    exists s2, i2, c2. repeat split; auto; lia.
  - destruct (run a s i c k) eqn:E.
    + inversion H; subst. apply IHa in E. exact E.
    + apply IHb in H. exact H.
  - revert H. generalize (length s) at 1. intros n. revert s i c.
    induction n as [ | n IHn]; intros s i c H.
    + exists s, i, c. repeat split; auto.
    + match type of H with
      | match ?X with _ => _ end = _ => destruct X eqn:E
      end.
      * inversion H; subst.
        apply IHa in E. destruct E as (s1 & i1 & c1 & E & Hi & Hl).
        destruct (i <? i1)%nat; [ | discriminate].
        apply IHn in E. destruct E as (s2 & i2 & c2 & E & Hi2 & Hl2).
        exists s2, i2, c2. repeat split; auto; lia.
      * exists s, i, c. repeat split; auto.
  - apply IHa in H. destruct H as (s1 & i1 & c1 & H & Hi & Hl).
    eauto 10.
Qed.

Lemma findFrom_range (r : re) :
  forall s i a b c,
    findFrom r s i = Some (a, b, c) ->
    (i <= a <= b)%nat /\ (b <= i + length s)%nat.
Proof.
  induction s as [ | y s IH]; intros i a b c H; simpl in H.
  - destruct (run r [] i [] _) as [ [j cj] | ] eqn:E; [ | discriminate].
    inversion H; subst. apply run_inv in E.
    destruct E as (s1 & i1 & c1 & E & Hi & Hl). inversion E; subst.
    simpl in *. lia.
  - destruct (run r (y :: s) i [] _) as [ [j cj] | ] eqn:E.
    + inversion H; subst. apply run_inv in E.
      destruct E as (s1 & i1 & c1 & E & Hi & Hl). inversion E; subst.
      simpl in *. lia.
    + apply IH in H. simpl. lia.
Qed.

Lemma findIndex_range (r : re) :
  forall s a b, findIndex r s = Some (a, b) -> (a <= b <= length s)%nat.
Proof.
  intros s a b H. unfold findIndex in H.
  destruct (findFrom r s 0) as [ [ [a' b'] c] | ] eqn:E; [ | discriminate].
  inversion H; subst. apply findFrom_range in E. lia.
Qed.

Definition MustCompile (r : re) : Regexp :=
  {| FindStringIndex := findIndex r;
     ReplaceAllString := replaceAll r;
     FindStringIndex_range := findIndex_range r |}.

(** Pattern text: a literal string. *)
Fixpoint lit (s : list rune) : re :=
  match s with
  | [] => Empty
  | [c] => Lit c
  | c :: s' => Cat (Lit c) (lit s')
  end.

Fixpoint times (n : nat) (a : re) : re :=
  match n with
  | O => Empty
  | 1%nat => a
  | S n' => Cat a (times n' a)
  end.

Definition plus (a : re) : re := Cat a (Star a).

End Regex.

(** ** Points, styles and tokens *)

Record point := mkPoint { x : Z; y : Z }.

Definition segment := (point * point)%type.

Definition eqb_point (p o : point) : bool := (x p =? x o) && (y p =? y o).

(** Colours and styles of the display library, as far as tokens carry
    them. *)
Inductive Color := ColorDefault | ColorBlack | ColorWhite | HexColor (v : Z).

Record Style := mkStyle { fg : Color; bg : Color }.

Definition StyleDefault : Style := mkStyle ColorDefault ColorDefault.
Definition Foreground (c : Color) (s : Style) : Style := mkStyle c (bg s).
Definition Background (c : Color) (s : Style) : Style := mkStyle (fg s) c.

Record token := mkToken {
  buffer : list rune;
  pos : point;
  rune' : option rune;
  style : option Style;
  newLine : bool;
  eof : bool;
  start : bool;
  selectStart : bool;
  selectEnd : bool
}.

Definition makeToken (p : point) (b : list rune) : token :=
  mkToken b p None None false false false false false.

Definition reset (t : token) : token := makeToken (pos t) (buffer t).

Definition setSelectStart (t : token) : token :=
  mkToken (buffer t) (pos t) None None false false false true false.
Definition setSelectEnd (t : token) : token :=
  mkToken (buffer t) (pos t) None None false false false false true.
Definition setStart (t : token) : token :=
  mkToken (buffer t) (pos t) None None false false true false false.
Definition setEof (t : token) : token :=
  mkToken (buffer t) (pos t) None None false true false false false.
Definition setNewLine (t : token) : token :=
  mkToken (buffer t) (pos t) None None true false false false false.
Definition setRune (r : rune) (t : token) : token :=
  mkToken (buffer t) (pos t) (Some r) None false false false false false.
Definition setStyle (s : Style) (t : token) : token :=
  mkToken (buffer t) (pos t) None (Some s) false false false false false.

Definition withBuffer (b : list rune) (t : token) : token :=
  mkToken b (pos t) (rune' t) (style t) (newLine t) (eof t) (start t)
          (selectStart t) (selectEnd t).
Definition withPos (p : point) (t : token) : token :=
  mkToken (buffer t) p (rune' t) (style t) (newLine t) (eof t) (start t)
          (selectStart t) (selectEnd t).
Definition withPosX (v : Z) (t : token) : token :=
  withPos (mkPoint v (y (pos t))) t.
Definition withPosY (v : Z) (t : token) : token :=
  withPos (mkPoint (x (pos t)) v) t.

(** ** The package's patterns *)

Definition isSpace (c : rune) : bool :=
  (c =? 9) || (c =? 10) || (c =? 12) || (c =? 13) || (c =? 32).

Definition isHex (c : rune) : bool :=
  ((65 <=? c) && (c <=? 70)) || ((97 <=? c) && (c <=? 102))
  || ((48 <=? c) && (c <=? 57)).

Definition selectFromToken : list rune := runes "<select-from>".
Definition selectToToken : list rune := runes "<select-to>".

(** The pattern [\s+]. *)
Definition whitespacePattern : Regex.re := Regex.plus (Regex.Class isSpace).
Definition selectFromPattern : Regex.re := Regex.lit selectFromToken.
Definition selectToPattern : Regex.re := Regex.lit selectToToken.

(** The pattern [(?s)(<select-to>|<select-from>)(.ANY)(<select-to>|<select-from>)],
    where [.ANY] is the greedy star of the dot, which with the [s] flag
    matches every rune. *)
Definition selectionPattern : Regex.re :=
  Regex.Cat (Regex.Group 1 (Regex.Alt selectToPattern selectFromPattern))
    (Regex.Cat (Regex.Group 2 (Regex.Star (Regex.Class (fun _ => true))))
       (Regex.Group 3 (Regex.Alt selectToPattern selectFromPattern))).

(** The pattern [<color:([A-Fa-f0-9]{6,6}):([A-Fa-f0-9]{6,6})>]. *)
Definition colorTagPattern : Regex.re :=
  Regex.Cat (Regex.lit (runes "<color:"))
    (Regex.Cat (Regex.Group 1 (Regex.times 6 (Regex.Class isHex)))
       (Regex.Cat (Regex.Lit (chr ":"))
          (Regex.Cat (Regex.Group 2 (Regex.times 6 (Regex.Class isHex)))
             (Regex.Lit (chr ">"))))).

Definition Escape (s : list rune) : list rune :=
  Strings.ReplaceAll
    (Strings.ReplaceAll
       (Strings.ReplaceAll s (runes "&") (runes "&amp;"))
       (runes "<") (runes "&lt;"))
    (runes ">") (runes "&gt;").

(** [strconv.ParseUint(s, 16, 64)]; [None] is the error result. *)
Definition hexDigit (c : rune) : option Z :=
  if (48 <=? c) && (c <=? 57) then Some (c - 48)
  else if (97 <=? c) && (c <=? 102) then Some (c - 97 + 10)
  else if (65 <=? c) && (c <=? 70) then Some (c - 65 + 10)
  else None.

Fixpoint parseHexFrom (acc : Z) (s : list rune) : option Z :=
  match s with
  | [] => Some acc
  | c :: s' =>
      match hexDigit c with
      | Some d => if 16 * acc + d <? 2 ^ 64 then parseHexFrom (16 * acc + d) s'
                  else None
      | None => None
      end
  end.

Definition ParseUint16 (s : list rune) : option Z :=
  match s with
  | [] => None
  | _ :: _ => parseHexFrom 0 s
  end.

Definition int32 (v : Z) : Z := (v + 2 ^ 31) mod 2 ^ 32 - 2 ^ 31.

(** ** The tokenizer, [parseTokens] *)

Inductive parseState := visible | escape | tag.

(** The local variables of [parseTokens] that live across iterations. *)
Record parser := mkParser {
  state : parseState;
  inSelection : bool;
  tok : token;
  tmpX : Z
}.

(** [cb]: hand the token to the callback, then clear its buffer.  The
    callbacks of this package only read the token while they run, so the
    tokens they see are collected in a list. *)
Definition cb (p : parser) (t : token) : parser * list token :=
  (mkParser (state p) (inSelection p) (withBuffer [] t) (tmpX p), [t]).

Definition withState (s : parseState) (p : parser) : parser :=
  mkParser s (inSelection p) (tok p) (tmpX p).

(** The body of the loop over the runes of a line. *)
Definition parseRune (p : parser) (ix : Z) (r : rune) : parser * list token :=
  let t1 := withBuffer (buffer (tok p) ++ [r]) (tok p) in
  match state p with
  | visible =>
      let t2 := withPosX ix t1 in
      if r =? chr "&" then (mkParser escape (inSelection p) t2 ix, [])
      else if r =? chr "<" then (mkParser tag (inSelection p) t2 ix, [])
      else cb (mkParser visible (inSelection p) t2 ix) (setRune r t2)
  | escape =>
      let p1 := mkParser escape (inSelection p) t1 ix in
      if r =? chr ";" then
        let '(p2, out) :=
          if eqb_runes (buffer t1) (runes "&amp;") then cb p1 (setRune (chr "&") t1)
          else if eqb_runes (buffer t1) (runes "&lt;") then cb p1 (setRune (chr "<") t1)
          else if eqb_runes (buffer t1) (runes "&gt;") then cb p1 (setRune (chr ">") t1)
          else (p1, []) in
        (withState visible p2, out)
      else (p1, [])
  | tag =>
      let p1 := mkParser tag (inSelection p) t1 ix in
      if r =? chr ">" then
        let '(p2, out) :=
          if eqb_runes (buffer t1) selectFromToken
             || eqb_runes (buffer t1) selectToToken
          then
            let '(p', out) :=
              if inSelection p then cb p1 (setSelectEnd t1)
              else cb p1 (setSelectStart t1) in
            (mkParser (state p') (negb (inSelection p')) (tok p') (tmpX p'), out)
          else
            match Regex.FindStringSubmatch colorTagPattern 2 (buffer t1) with
            | Some [_; m1; m2] =>
                match ParseUint16 m1, ParseUint16 m2 with
                | Some fgUint, Some bgUint =>
                    cb p1 (setStyle
                             (Background (HexColor (int32 bgUint))
                                (Foreground (HexColor (int32 fgUint)) StyleDefault))
                             t1)
                | _, _ => (p1, [])
                end
            | _ => (p1, [])
            end in
        (withState visible p2, out)
      else (p1, [])
  end.

Fixpoint parseRunes (p : parser) (ix : Z) (line : list rune)
  : parser * list token :=
  match line with
  | [] => (p, [])
  | r :: rest =>
      let '(p1, out1) := parseRune p ix r in
      let '(p2, out2) := parseRunes p1 (ix + 1) rest in
      (p2, out1 ++ out2)
  end.

(** The loop over the lines; [iy] is the index of the first line of
    [lines] and [n] is [len(buffer)]. *)
Fixpoint parseLines (p : parser) (iy n : Z) (lines : list (list rune))
  : parser * list token :=
  match lines with
  | [] => (p, [])
  | line :: rest =>
      let p0 := mkParser (state p) (inSelection p) (withPosY iy (tok p)) (tmpX p) in
      let '(p1, out1) := parseRunes p0 0 line in
      let '(p2, out2) :=
        if iy + 1 <? n then
          let '(p', out) := cb p1 (setNewLine (withPosX (tmpX p1 + 1) (tok p1))) in
          (withState visible p', out)
        else (p1, []) in
      let '(p3, out3) := parseLines p2 (iy + 1) n rest in
      (p3, out1 ++ out2 ++ out3)
  end.

Definition parseTokens (buf : list (list rune)) : list token :=
  let p0 := mkParser visible false (makeToken (mkPoint 0 0) []) 0 in
  let '(p1, out1) := cb p0 (setStart (tok p0)) in
  let '(p2, out2) := parseLines p1 0 (len buf) buf in
  let '(_, out3) := cb p2 (setEof (withPosX (tmpX p2 + 1) (tok p2))) in
  out1 ++ out2 ++ out3.

(** ** Strings and rune lines *)

Definition stringToRunes (s : list rune) : list (list rune) :=
  Strings.Split s newline.

Fixpoint runesToString (rs : list (list rune)) : list rune :=
  match rs with
  | [] => []
  | [line] => line
  | line :: rest => line ++ newline :: runesToString rest
  end.

(** [res[len(res)-1] = append(res[len(res)-1], v)]; on an empty [res] the
    index expression panics. *)
Fixpoint appendToLast {A} (res : list (list A)) (v : A) : option (list (list A)) :=
  match res with
  | [] => None
  | [l] => Some [l ++ [v]]
  | l :: rest =>
      match appendToLast rest v with
      | Some rest' => Some (l :: rest')
      | None => None
      end
  end.

Definition plainStep (res : option (list (list rune))) (t : token)
  : option (list (list rune)) :=
  match res with
  | None => None
  | Some res =>
      if start t then Some (res ++ [[]])
      else match rune' t with
           | Some r => appendToLast res r
           | None => if newLine t then Some (res ++ [[]]) else Some res
           end
  end.

(** [plain]; [None] would be the panic of the index expression, which the
    leading [start] token rules out. *)
Definition plain (r : list (list rune)) : option (list (list rune)) :=
  fold_left plainStep (parseTokens r) (Some []).

Definition PlainText (s : list rune) : option (list rune) :=
  option_map runesToString (plain (stringToRunes s)).

(** ** Strings as bytes

    A Go string holds arbitrary bytes.  [[]rune(s)] reads it as UTF-8 and
    gives U+FFFD for each byte that does not start a well-formed sequence;
    [string(rs)] writes each rune in UTF-8, and U+FFFD for a value that is
    no code point.  Bytes are integers from 0 to 255; shifts and masks are
    written as quotients and remainders by powers of two. *)

Module Utf8.

Definition RuneError : rune := 65533.

Definition within (lo hi b : Z) : bool := (lo <=? b) && (b <=? hi).

(** For a leading byte: the length of its sequence and the range of the
    byte after it (the tables [first] and [acceptRanges] of package
    [unicode/utf8]). *)
Definition accept (b0 : Z) : option (nat * Z * Z) :=
  if within 194 223 b0 then Some (2%nat, 128, 191)
  else if b0 =? 224 then Some (3%nat, 160, 191)
  else if within 225 236 b0 then Some (3%nat, 128, 191)
  else if b0 =? 237 then Some (3%nat, 128, 159)
  else if within 238 239 b0 then Some (3%nat, 128, 191)
  else if b0 =? 240 then Some (4%nat, 144, 191)
  else if within 241 243 b0 then Some (4%nat, 128, 191)
  else if b0 =? 244 then Some (4%nat, 128, 143)
  else None.

(** A continuation byte. *)
Definition continues (b : Z) : bool := within 128 191 b.

(** [[]rune(s)]: after a byte that starts no well-formed sequence the
    reading goes on with the next byte. *)
Fixpoint decode (s : list Z) : list rune :=
  match s with
  | [] => []
  | b0 :: s1 =>
      if within 0 127 b0 then b0 :: decode s1
      else
        match accept b0, s1 with
        | Some (2%nat, lo, hi), b1 :: s2 =>
            if within lo hi b1
            then (b0 mod 32) * 64 + b1 mod 64 :: decode s2
            else RuneError :: decode s1
        | Some (3%nat, lo, hi), b1 :: b2 :: s3 =>
            if within lo hi b1 && continues b2
            then (b0 mod 16) * 4096 + (b1 mod 64) * 64 + b2 mod 64 :: decode s3
            else RuneError :: decode s1
        | Some (4%nat, lo, hi), b1 :: b2 :: b3 :: s4 =>
            if within lo hi b1 && continues b2 && continues b3
            then (b0 mod 8) * 262144 + (b1 mod 64) * 4096
                 + (b2 mod 64) * 64 + b3 mod 64 :: decode s4
            else RuneError :: decode s1
        | _, _ => RuneError :: decode s1
        end
  end.

(** [utf8.ValidString] *)
Fixpoint valid (s : list Z) : bool :=
  match s with
  | [] => true
  | b0 :: s1 =>
      if within 0 127 b0 then valid s1
      else
        match accept b0, s1 with
        | Some (2%nat, lo, hi), b1 :: s2 => within lo hi b1 && valid s2
        | Some (3%nat, lo, hi), b1 :: b2 :: s3 =>
            within lo hi b1 && continues b2 && valid s3
        | Some (4%nat, lo, hi), b1 :: b2 :: b3 :: s4 =>
            within lo hi b1 && continues b2 && continues b3 && valid s4
        | _, _ => false
        end
  end.

(** [string(r)] for one rune: a negative value, a value above U+10FFFF and
    a surrogate are written as U+FFFD. *)
Definition encodeRune (r : rune) : list Z :=
  if (r <? 0) || (1114111 <? r) || within 55296 57343 r then [239; 191; 189]
  else if r <? 128 then [r]
  else if r <? 2048 then [192 + r / 64; 128 + r mod 64]
  else if r <? 65536
       then [224 + r / 4096; 128 + (r / 64) mod 64; 128 + r mod 64]
       else [240 + r / 262144; 128 + (r / 4096) mod 64;
             128 + (r / 64) mod 64; 128 + r mod 64].

(** [string(rs)] *)
Definition encode (rs : list rune) : list Z := flat_map encodeRune rs.

End Utf8.

(** The functions of the package on strings of bytes.  [Escape] needs no
    second definition: [strings.ReplaceAll] works on the bytes, and the
    three patterns and their replacements are single-byte characters, so
    [Escape] above is the function on bytes as well. *)
Module GoString.

(** [stringToRunes]: the string split at its line feeds, and [[]rune(line)]
    for each line. *)
Definition stringToRunes (s : list Z) : list (list rune) :=
  map Utf8.decode (Strings.Split s newline).

(** [runesToString]: [string(line)] for each line, and a line feed between
    two lines. *)
Fixpoint runesToString (rs : list (list rune)) : list Z :=
  match rs with
  | [] => []
  | [line] => Utf8.encode line
  | line :: rest => Utf8.encode line ++ newline :: runesToString rest
  end.

(** [PlainText]; [None] as for [PlainText] on code points. *)
Definition PlainText (s : list Z) : option (list Z) :=
  option_map runesToString (plain (stringToRunes s)).

End GoString.

(** ** Flattening, [flattenWithIndex] *)

Record flatIndex := mkFlatIndex { raw : point; screen : point; flatRaw : Z }.

Record flattened := mkFlattened {
  flatRawRunes : list rune;
  flatScreen : list rune;
  rawIndex : list flatIndex;
  screenIndex : list flatIndex;
  screenPos : point
}.

(** The loop [for _ = range t.buffer] that indexes the runes of a span. *)
Fixpoint spanIndex (buf : list rune) (rawPos scr : point) (base offset : Z)
  : list flatIndex :=
  match buf with
  | [] => []
  | _ :: buf' =>
      mkFlatIndex rawPos scr (base + offset)
      :: spanIndex buf' (mkPoint (x rawPos + 1) (y rawPos)) scr base (offset + 1)
  end.

Definition flattenStep (f : flattened) (t : token) : flattened :=
  let scr := screenPos f in
  let here := mkFlatIndex (pos t) scr (len (flatRawRunes f)) in
  match rune' t with
  | Some r =>
      mkFlattened (flatRawRunes f ++ buffer t) (flatScreen f ++ [r])
        (rawIndex f ++ spanIndex (buffer t) (pos t) scr (len (flatRawRunes f)) 0)
        (screenIndex f ++ [here])
        (mkPoint (x scr + 1) (y scr))
  | None =>
      if newLine t then
        mkFlattened (flatRawRunes f ++ [newline]) (flatScreen f ++ [newline])
          (rawIndex f ++ [here]) (screenIndex f ++ [here])
          (mkPoint 0 (y scr + 1))
      else if eof t then
        mkFlattened (flatRawRunes f) (flatScreen f)
          (rawIndex f ++ [here]) (screenIndex f ++ [here]) scr
      else
        mkFlattened (flatRawRunes f ++ buffer t) (flatScreen f)
          (rawIndex f ++ spanIndex (buffer t) (pos t) scr (len (flatRawRunes f)) 0)
          (screenIndex f) scr
  end.

Definition flattenWithIndex (rs : list (list rune)) : flattened :=
  fold_left flattenStep (parseTokens rs)
            (mkFlattened [] [] [] [] (mkPoint 0 0)).

(** ** Results of code that can panic or loop *)

Inductive panic := IndexOutOfRange | SliceBoundsOutOfRange.

Inductive result (A : Type) :=
| Ok (a : A)
| Panic (why : panic)
| OutOfFuel.

Arguments Ok {A} a.
Arguments Panic {A} why.
Arguments OutOfFuel {A}.

Definition bind {A B} (m : result A) (f : A -> result B) : result B :=
  match m with
  | Ok a => f a
  | Panic why => Panic why
  | OutOfFuel => OutOfFuel
  end.

Notation "'do' a <- m ; k" := (bind m (fun a => k))
  (at level 10, a pattern, m at level 100, k at level 200).

Definition orPanic {A} (o : option A) (why : panic) : result A :=
  match o with
  | Some a => Ok a
  | None => Panic why
  end.

(** ** Search and replace, [replace] *)

Section Replace.

(** The decision callback is a closure: [Q] is the state it captures and
    updates at each call. *)
Variable Q : Type.
Variable query : Q -> list rune -> segment -> segment -> bool * Q.

(** One round of the [for] loop per unit of fuel.  [resRunes[:n]] stops
    the model when [n] exceeds the length of [resRunes]: Go panics there
    when [n] also exceeds the capacity, and otherwise uncovers the unused
    capacity of the slice. *)
Fixpoint replaceLoop (fuel : nat) (p : Regex.Regexp) (repl : list rune)
         (haystack : list rune) (haystackIndex : list flatIndex)
         (resRunes : list rune) (haystackOffset : nat) (q : Q)
  : result (list (list rune) * Q) :=
  match fuel with
  | O => OutOfFuel
  | S fuel' =>
      let remainingHaystack := from haystackOffset haystack in
      let remainingHaystackIndex := from haystackOffset haystackIndex in
      let searchString := remainingHaystack in
      match Regex.FindStringIndex p searchString with
      | None => Ok (stringToRunes resRunes, q)
      | Some (m0, m1) =>
          do startIndex <- orPanic (nth_error remainingHaystackIndex m0) IndexOutOfRange;
          do endIndex <- orPanic (nth_error remainingHaystackIndex m1) IndexOutOfRange;
          let matched := upto (m1 - m0) (from m0 searchString) in
          let '(yes, q') := query q matched (raw startIndex, raw endIndex)
                                  (screen startIndex, screen endIndex) in
          do resRunes' <-
             (if yes then
                let replacement := Regex.ReplaceAllString p matched repl in
                if (0 <=? flatRaw startIndex) && (flatRaw startIndex <=? len resRunes)
                then Ok (upto (Z.to_nat (flatRaw startIndex)) resRunes
                           ++ replacement ++ from m1 searchString)
                else Panic SliceBoundsOutOfRange
              else Ok resRunes);
          let haystackOffset' := (haystackOffset + m1)%nat in
          if Z.of_nat haystackOffset' >? len haystack - 1
          then Ok (stringToRunes resRunes', q')
          else replaceLoop fuel' p repl haystack haystackIndex resRunes'
                           haystackOffset' q'
      end
  end.

Definition replace (fuel : nat) (rs : list (list rune)) (raw : bool)
           (p : Regex.Regexp) (repl : list rune) (q : Q)
  : result (list (list rune) * Q) :=
  let f := flattenWithIndex rs in
  let resRunes := flatRawRunes f in
  let haystack := if raw then flatRawRunes f else flatScreen f in
  let haystackIndex := if raw then rawIndex f else screenIndex f in
  replaceLoop fuel p repl haystack haystackIndex resRunes O q.

End Replace.

(** A callback that answers [yes] and records its arguments. *)
Definition recording (yes : bool) (q : list (list rune * segment * segment))
           (m : list rune) (rawSeg screenSeg : segment)
  : bool * list (list rune * segment * segment) :=
  (yes, q ++ [(m, rawSeg, screenSeg)]).

(** ** The editor

    The undo stack stores the patches of the diff library.  [Differ] is what
    the editor uses of it: [PatchMake(text1, text2)] and
    [PatchApply(patches, text)], which returns the new text and, for each
    patch, whether it applied. *)

Record Differ := mkDiffer {
  Patches : Type;
  PatchMake : list rune -> list rune -> Patches;
  PatchApply : Patches -> list rune -> list rune * list bool
}.

Inductive direction := up | left | down | right.

Section Editor.

Variable differ : Differ.

Record patch := mkPatch {
  patchCursor : point;
  patches : Patches differ
}.

(** [Screen] holds what [e.Screen.Size()] returns, the only thing the engine
    reads back from the display; the cells it draws are not part of the
    state. *)
Record Editor := mkEditor {
  Screen : Z * Z;
  rawBuffer : list (list rune);
  screenBuffer : list (list rune);
  screenBufferIndex : list (list point);
  lineOffset : Z;
  selecting : bool;
  pasteBuffer : list (list rune);
  undoPatches : list patch;
  redoPatches : list patch;
  cursor : point
}.

Definition setScreen (v : Z * Z) (e : Editor) : Editor :=
  mkEditor v (rawBuffer e) (screenBuffer e) (screenBufferIndex e)
           (lineOffset e) (selecting e) (pasteBuffer e) (undoPatches e)
           (redoPatches e) (cursor e).
Definition setRawBuffer (v : list (list rune)) (e : Editor) : Editor :=
  mkEditor (Screen e) v (screenBuffer e) (screenBufferIndex e)
           (lineOffset e) (selecting e) (pasteBuffer e) (undoPatches e)
           (redoPatches e) (cursor e).
Definition setScreenBuffers (b : list (list rune)) (i : list (list point))
           (e : Editor) : Editor :=
  mkEditor (Screen e) (rawBuffer e) b i
           (lineOffset e) (selecting e) (pasteBuffer e) (undoPatches e)
           (redoPatches e) (cursor e).
Definition setLineOffset (v : Z) (e : Editor) : Editor :=
  mkEditor (Screen e) (rawBuffer e) (screenBuffer e) (screenBufferIndex e)
           v (selecting e) (pasteBuffer e) (undoPatches e)
           (redoPatches e) (cursor e).
Definition setSelecting (v : bool) (e : Editor) : Editor :=
  mkEditor (Screen e) (rawBuffer e) (screenBuffer e) (screenBufferIndex e)
           (lineOffset e) v (pasteBuffer e) (undoPatches e)
           (redoPatches e) (cursor e).
Definition setPasteBuffer (v : list (list rune)) (e : Editor) : Editor :=
  mkEditor (Screen e) (rawBuffer e) (screenBuffer e) (screenBufferIndex e)
           (lineOffset e) (selecting e) v (undoPatches e)
           (redoPatches e) (cursor e).
Definition setUndoPatches (v : list patch) (e : Editor) : Editor :=
  mkEditor (Screen e) (rawBuffer e) (screenBuffer e) (screenBufferIndex e)
           (lineOffset e) (selecting e) (pasteBuffer e) v
           (redoPatches e) (cursor e).
Definition setRedoPatches (v : list patch) (e : Editor) : Editor :=
  mkEditor (Screen e) (rawBuffer e) (screenBuffer e) (screenBufferIndex e)
           (lineOffset e) (selecting e) (pasteBuffer e) (undoPatches e)
           v (cursor e).
Definition setCursorPoint (v : point) (e : Editor) : Editor :=
  mkEditor (Screen e) (rawBuffer e) (screenBuffer e) (screenBufferIndex e)
           (lineOffset e) (selecting e) (pasteBuffer e) (undoPatches e)
           (redoPatches e) v.
Definition setCursorX (v : Z) (e : Editor) : Editor :=
  setCursorPoint (mkPoint v (y (cursor e))) e.
Definition setCursorY (v : Z) (e : Editor) : Editor :=
  setCursorPoint (mkPoint (x (cursor e)) v) e.

Definition noScreen (e : Editor) : bool :=
  (fst (Screen e) =? 0) || (snd (Screen e) =? 0).

(** [height/2]: Go's division truncates. *)
Definition halfHeight (e : Editor) : Z := Z.quot (snd (Screen e)) 2.

(** *** [redraw] *)

Definition wrapped := (list (list rune) * list (list point))%type.

Definition beginLine (w : wrapped) : wrapped := (fst w ++ [[]], snd w ++ [[]]).

Definition endLine (rawLineIdx : Z) (w : wrapped) : option wrapped :=
  match appendToLast (snd w) (mkPoint (-1) rawLineIdx) with
  | Some i => Some (fst w, i)
  | None => None
  end.

(** The callback [redraw] gives to [parseTokens], without the styles, which
    only reach the display. *)
Definition redrawStep (width : Z) (acc : option wrapped) (t : token)
  : option wrapped :=
  match acc with
  | None => None
  | Some w =>
      if start t then Some (beginLine w)
      else if newLine t then option_map beginLine (endLine (y (pos t)) w)
      else match rune' t with
           | Some r =>
               match appendToLast (fst w) r, appendToLast (snd w) (pos t) with
               | Some b, Some i =>
                   if len (last b []) >? width - 1
                   then option_map beginLine (endLine (y (pos t)) (b, i))
                   else Some (b, i)
               | _, _ => None
               end
           | None =>
               match style t with
               | Some _ => Some w
               | None => if eof t then endLine (y (pos t)) w else Some w
               end
           end
  end.

Definition wrap (width : Z) (rs : list (list rune)) : option wrapped :=
  fold_left (redrawStep width) (parseTokens rs) (Some ([], [])).

(** [redraw] rebuilds the screen buffer and its index, then draws the lines
    from [e.screenBuffer[e.lineOffset:]], a slice expression that panics
    unless [0 <= lineOffset <= len(screenBuffer)]. *)
Definition redraw (e : Editor) : result Editor :=
  let e := setScreenBuffers [] [] e in
  if noScreen e then Ok e
  else
    do w <- orPanic (wrap (fst (Screen e)) (rawBuffer e)) IndexOutOfRange;
    let e := setScreenBuffers (fst w) (snd w) e in
    if (0 <=? lineOffset e) && (lineOffset e <=? len (screenBuffer e))
    then Ok e
    else Panic SliceBoundsOutOfRange.

(** *** Cursor and scrolling *)

Definition limitInt (i minInc maxExc : Z) : Z :=
  let i := if i <? minInc then minInc else i in
  if i >=? maxExc then maxExc - 1 else i.

Definition minInt (i : list Z) : Z := fold_left Z.min i (2 ^ 63 - 1).
Definition maxInt (i : list Z) : Z := fold_left Z.max i (- 2 ^ 63).

Definition lineWidth (e : Editor) (y0 : Z) : result Z :=
  if y0 + lineOffset e <? len (screenBuffer e) then
    do l <- orPanic (index (screenBuffer e) (y0 + lineOffset e)) IndexOutOfRange;
    Ok (len l)
  else Ok 0.

Definition setCursor (e : Editor) : result Editor :=
  if noScreen e then Ok e
  else
    let e := setCursorY
               (limitInt (y (cursor e)) 0
                  (minInt [snd (Screen e); len (screenBuffer e) - lineOffset e]))
               e in
    do w <- lineWidth e (y (cursor e));
    Ok (setCursorX (limitInt (x (cursor e)) 0 (minInt [fst (Screen e); w + 1])) e).

Definition canMoveCursor (e : Editor) (d : direction) : result bool :=
  match d with
  | up => Ok (y (cursor e) >? 0)
  | left => Ok (x (cursor e) >? 0)
  | down => Ok ((y (cursor e) + 1 <? snd (Screen e))
                && (y (cursor e) + lineOffset e <? len (screenBuffer e) - 1))
  | right =>
      if x (cursor e) + 1 <? fst (Screen e) then
        do w <- lineWidth e (y (cursor e));
        Ok (x (cursor e) <? w)
      else Ok false
  end.

Definition canScroll (e : Editor) (d : direction) : bool :=
  match d with
  | up => lineOffset e >? 0
  | down => lineOffset e + 1 <? len (screenBuffer e) - halfHeight e
  | _ => false
  end.

Definition scroll (d : direction) (e : Editor) : result Editor :=
  if noScreen e then Ok e
  else
    let lo := match d with
              | up => lineOffset e - 1
              | down => lineOffset e + 1
              | _ => lineOffset e
              end in
    redraw (setLineOffset (limitInt lo 0 (len (screenBuffer e) - halfHeight e)) e).

(** [len(e.screenBuffer[e.cursor.y+e.lineOffset])] *)
Definition cursorLineLen (e : Editor) : result Z :=
  do l <- orPanic (index (screenBuffer e) (y (cursor e) + lineOffset e))
                  IndexOutOfRange;
  Ok (len l).

(** [moveCursor]: the body, then the deferred [setCursor].  Only [left]
    calls itself, after a scroll that lowered a positive [lineOffset]; [n]
    bounds the depth of these calls. *)
Fixpoint moveCursorN (n : nat) (d : direction) (e : Editor)
  : result (bool * Editor) :=
  do (moved, e1) <-
     (match d with
      | up =>
          do can <- canMoveCursor e up;
          if can then Ok (true, setCursorY (y (cursor e) - 1) e)
          else if canScroll e up then
            do e1 <- scroll up e; Ok (true, e1)
          else Ok (false, e)
      | left =>
          do can <- canMoveCursor e left;
          if can then Ok (true, setCursorX (x (cursor e) - 1) e)
          else
            do canUp <- canMoveCursor e up;
            if canUp then
              let e1 := setCursorY (y (cursor e) - 1) e in
              do w <- cursorLineLen e1;
              Ok (true, setCursorX w e1)
            else if canScroll e up then
              do e1 <- scroll up e;
              do w <- cursorLineLen e1;
              match n with
              | O => OutOfFuel
              | S n' => moveCursorN n' left (setCursorX w e1)
              end
            else Ok (false, e)
      | down =>
          do can <- canMoveCursor e down;
          if can then Ok (true, setCursorY (y (cursor e) + 1) e)
          else if canScroll e down then
            do e1 <- scroll down e; Ok (true, e1)
          else Ok (false, e)
      | right =>
          do can <- canMoveCursor e right;
          if can then Ok (true, setCursorX (x (cursor e) + 1) e)
          else
            do canDown <- canMoveCursor e down;
            if canDown then
              Ok (true, setCursorX 0 (setCursorY (y (cursor e) + 1) e))
            else if (y (cursor e) + lineOffset e + 1 <? len (screenBuffer e))
                    && canScroll e down then
              do e1 <- scroll down e;
              Ok (true, setCursorX 0 e1)
            else Ok (false, e)
      end);
  do e2 <- setCursor e1;
  Ok (moved, e2).

Definition moveCursor (d : direction) (e : Editor) : result (bool * Editor) :=
  moveCursorN (Z.to_nat (lineOffset e)) d e.

(** *** Editing the raw buffer *)

(** Slice expressions [l[:n]] and [l[n:]] and the assignment [l[i] = v] on
    Go [int]s.  A bound beyond the length stops the model, with the proviso
    on capacities stated at [replaceLoop]. *)
Definition sliceTo {A} (l : list A) (n : Z) : result (list A) :=
  if (0 <=? n) && (n <=? len l) then Ok (firstn (Z.to_nat n) l)
  else Panic SliceBoundsOutOfRange.

Definition sliceFrom {A} (l : list A) (n : Z) : result (list A) :=
  if (0 <=? n) && (n <=? len l) then Ok (skipn (Z.to_nat n) l)
  else Panic SliceBoundsOutOfRange.

Definition at' {A} (l : list A) (i : Z) : result A :=
  orPanic (index l i) IndexOutOfRange.

Definition assign {A} (l : list A) (i : Z) (v : A) : result (list A) :=
  if (0 <=? i) && (i <? len l)
  then Ok (firstn (Z.to_nat i) l ++ v :: skipn (S (Z.to_nat i)) l)
  else Panic IndexOutOfRange.

(** [e.screenBufferIndex[screenPoint.y+e.lineOffset][screenPoint.x]] *)
Definition rawPointAt (e : Editor) (screenPoint : point) : result point :=
  do row <- at' (screenBufferIndex e) (y screenPoint + lineOffset e);
  at' row (x screenPoint).

(** The three editing methods defer [redraw]: it runs when the body
    returns.  When the body panics the panic goes on after the deferred
    call, and the model reports the panic of the body. *)
Definition addLineAt (screenPoint : point) (e : Editor) : result Editor :=
  do p <- rawPointAt e screenPoint;
  do rb <-
     (if x p <? 0 then
        do before <- sliceTo (rawBuffer e) (y p + 1);
        do after <- sliceFrom (rawBuffer e) (y p + 1);
        Ok (before ++ [[]] ++ after)
      else
        do before <- sliceTo (rawBuffer e) (y p);
        do line <- at' (rawBuffer e) (y p);
        do l1 <- sliceTo line (x p);
        do l2 <- sliceFrom line (x p);
        do after <- sliceFrom (rawBuffer e) (y p + 1);
        Ok (before ++ [l1] ++ [l2] ++ after));
  redraw (setRawBuffer rb e).

Definition deleteAt (screenPoint : point) (e : Editor) : result Editor :=
  do p <- rawPointAt e screenPoint;
  do rb <-
     (if x p <? 0 then
        if y p + 1 <? len (rawBuffer e) then
          do before <- sliceTo (rawBuffer e) (y p);
          do l1 <- at' (rawBuffer e) (y p);
          do l2 <- at' (rawBuffer e) (y p + 1);
          do after <- sliceFrom (rawBuffer e) (y p + 2);
          Ok (before ++ [l1 ++ l2] ++ after)
        else Ok (rawBuffer e)
      else
        do line <- at' (rawBuffer e) (y p);
        do r <- at' line (x p);
        let cut (n : Z) :=
          do l1 <- sliceTo line (x p);
          do l2 <- sliceFrom line (x p + n);
          assign (rawBuffer e) (y p) (l1 ++ l2) in
        let has (n : Z) (esc : list rune) :=
          (len line - x p >? n)
          && eqb_runes (firstn (Z.to_nat n) (skipn (Z.to_nat (x p)) line)) esc in
        if (r =? chr "&") && has 5 (runes "&amp;") then cut 5
        else if (r =? chr "&") && has 4 (runes "&gt;") then cut 4
        else if (r =? chr "&") && has 4 (runes "&lt;") then cut 4
        else cut 1);
  redraw (setRawBuffer rb e).

Definition writeAt (rs : list rune) (screenPoint : point) (e : Editor)
  : result Editor :=
  do p <- rawPointAt e screenPoint;
  do line <- at' (rawBuffer e) (y p);
  do rb <-
     (if x p <? 0 then assign (rawBuffer e) (y p) (line ++ rs)
      else
        do l1 <- sliceTo line (x p);
        do l2 <- sliceFrom line (x p);
        assign (rawBuffer e) (y p) (l1 ++ rs ++ l2));
  redraw (setRawBuffer rb e).

(** The method [(e *Editor) replace]: [replace] on the raw buffer, and a
    redraw when a match was accepted. *)
Definition Editor_replace (Q : Type)
           (query : Q -> list rune -> segment -> segment -> bool * Q)
           (fuel : nat) (raw : bool) (p : Regex.re) (repl : list rune)
           (q : Q) (e : Editor) : result (Q * Editor) :=
  do (rs, qc) <-
     replace (fun qc m rawSeg screenSeg =>
                let '(res, q') := query (fst qc) m rawSeg screenSeg in
                (res, (q', snd qc || res)))
             fuel (rawBuffer e) raw (Regex.MustCompile p) repl (q, false);
  let e := setRawBuffer rs e in
  if snd qc then do e <- redraw e; Ok (fst qc, e) else Ok (fst qc, e).

(** [plain] for a caller that goes on with the lines; [plain] always
    returns them (lemma [plain_some] below). *)
Definition plainLines (r : list (list rune)) : list (list rune) :=
  match plain r with
  | Some v => v
  | None => []
  end.

Definition selectionText (s : list rune) : option (list rune) :=
  match Regex.FindStringSubmatch selectionPattern 3 s with
  | Some (_ :: _ :: m2 :: _) => Some m2
  | _ => None
  end.

Definition copySelection (fuel : nat) (e : Editor) : result Editor :=
  do (paste, e) <-
     Editor_replace
       (fun paste s _ _ =>
          match selectionText s with
          | Some m2 => (false, plainLines (stringToRunes m2))
          | None => (false, paste)
          end)
       fuel true selectionPattern [] (pasteBuffer e) e;
  Ok (setPasteBuffer paste e).

Definition zeroSegment : segment := (mkPoint 0 0, mkPoint 0 0).

Definition removeSelection (fuel : nat) (cpy : bool) (e : Editor)
  : result (segment * list rune * Editor) :=
  do (q, e) <-
     Editor_replace
       (fun (q : list (list rune) * segment * list rune) s _ screenSeg =>
          let paste :=
            if cpy then
              match selectionText s with
              | Some m2 => plainLines (stringToRunes m2)
              | None => fst (fst q)
              end
            else fst (fst q) in
          (true, (paste, screenSeg, runesToString (plainLines (stringToRunes s)))))
       fuel true selectionPattern [] (pasteBuffer e, zeroSegment, []) e;
  Ok (snd (fst q), snd q, setPasteBuffer (fst (fst q)) e).

(** [points.Less] and [sort.Sort] on a handful of points. *)
Definition Less (p o : point) : bool :=
  (y p <? y o) || ((y p =? y o) && (x p <? x o)).

Fixpoint insertPoint (p : point) (ps : list point) : list point :=
  match ps with
  | [] => [p]
  | o :: ps' => if Less p o then p :: ps else o :: insertPoint p ps'
  end.

Definition sortPoints (ps : list point) : list point :=
  fold_right insertPoint [] ps.

(** [dist]: the distance rounded to the nearest integer. *)
Definition dist (p o : point) : Z :=
  let dx := x p - x o in
  let dy := y p - y o in
  (Z.sqrt (4 * (dx * dx + dy * dy)) + 1) / 2.

Definition backCursor (removedSeg : segment) (removedRunes : list rune)
           (e : Editor) : result Editor :=
  match sortPoints [fst removedSeg; snd removedSeg; cursor e] with
  | [_; ps1; ps2] =>
      let e :=
        if eqb_point ps1 (cursor e)
           || (eqb_point ps2 (cursor e) && (dist ps1 ps2 =? 1))
        then setCursorPoint (fst removedSeg) e
        else if eqb_point ps2 (cursor e) && (y (cursor e) =? y ps1)
        then setCursorX (x (cursor e) - len removedRunes) e
        else if eqb_point ps2 (cursor e)
        then setCursorY (y (cursor e) - Strings.Count removedRunes newline) e
        else e in
      setCursor e
  | _ => Panic IndexOutOfRange
  end.

(** *** Predicates of the jumps *)

Definition runeAt (e : Editor) (screenPoint : point) : result rune :=
  let sy := y screenPoint + lineOffset e in
  if sy <? len (screenBuffer e) then
    do row <- at' (screenBuffer e) sy;
    if x screenPoint <? len row then at' row (x screenPoint)
    else Ok newline
  else Ok 0.

Definition whitespaceAt (e : Editor) (screenPoint : point) : result bool :=
  do r <- runeAt e screenPoint;
  Ok (Regex.MatchString whitespacePattern [r]).

Fixpoint firstWhitespace (ix : Z) (line : list rune) : Z :=
  match line with
  | [] => 0
  | r :: rest =>
      if Regex.MatchString whitespacePattern [r] then ix
      else firstWhitespace (ix + 1) rest
  end.

Definition indentation (e : Editor) (screenY : Z) : result Z :=
  do row <- at' (screenBufferIndex e) (screenY + lineOffset e);
  do p <- at' row 0;
  do line <- at' (rawBuffer e) (y p);
  Ok (firstWhitespace 0 line).

(** [moveCursorUntil] with the predicate [cont], which reads the editor when
    it is called. *)
Fixpoint moveCursorUntil (fuel : nat) (dir : direction)
         (cont : Editor -> result bool) (e : Editor) : result Editor :=
  match fuel with
  | O => OutOfFuel
  | S fuel' =>
      do (moved, e) <- moveCursor dir e;
      if moved then
        do stop <- cont e;
        if stop then Ok e else moveCursorUntil fuel' dir cont e
      else Ok e
  end.

Definition differentWhitespaceness (e0 : Editor) (screenPoint : point)
  : result (Editor -> result bool) :=
  do curr <- whitespaceAt e0 screenPoint;
  Ok (fun e => do w <- whitespaceAt e (cursor e); Ok (negb (Bool.eqb curr w))).

Definition differentIndentness (e0 : Editor) (screenPoint : point)
  : result (Editor -> result bool) :=
  do curr <- indentation e0 (y screenPoint);
  Ok (fun e => do i <- indentation e (y (cursor e)); Ok (negb (curr =? i))).

(** *** The event loop, [pollKeys] *)

Inductive Key :=
| KeyEnter | KeyBackspace | KeyBackspace2 | KeyDelete | KeyTab
| KeyRune (r : rune)
| KeyPgUp | KeyPgDn | KeyHome | KeyEnd
| KeyCtrlZ | KeyCtrlY | KeyCtrlC | KeyCtrlX | KeyCtrlV | KeyCtrlW
| KeyUp | KeyDown | KeyLeft | KeyRight | KeyEsc
| KeyOther.

(** An event of the display: a resize, after which [Size] returns the new
    size, or a key with its shift and control modifiers. *)
Inductive Event :=
| EventResize (width height : Z)
| EventKey (k : Key) (shift ctrl : bool).

(** The variables a [case] of the key switch may set. *)
Record flags := mkFlags {
  storeUndo : bool;
  clearRedo : bool;
  selectFrom : option point;
  quit : bool
}.

Definition plainFlags : flags := mkFlags true true None false.

Definition shiftFlags (shift : bool) (e : Editor) : flags :=
  mkFlags true true (if shift then Some (cursor e) else None) false.

Definition always (yes : bool) (q : unit) (_ : list rune) (_ _ : segment)
  : bool * unit := (yes, q).

Definition removeToken (fuel : nat) (p : Regex.re) (e : Editor) : result Editor :=
  do (_, e) <- Editor_replace (always true) fuel true p [] tt e; Ok e.

(** [for i := 0; i < height; i++ { if !e.moveCursor(d) { break } }] *)
Fixpoint page (n : nat) (d : direction) (e : Editor) : result Editor :=
  match n with
  | O => Ok e
  | S n' =>
      do (moved, e) <- moveCursor d e;
      if moved then page n' d e else Ok e
  end.

(** The loop of [KeyBackspace]. *)
Fixpoint backspaceWord (fuel : nat) (whitespaceness : bool) (e : Editor)
  : result Editor :=
  match fuel with
  | O => OutOfFuel
  | S fuel' =>
      do (moved, e) <- moveCursor left e;
      if moved then
        do w <- whitespaceAt e (cursor e);
        if negb (Bool.eqb whitespaceness w) then
          do (_, e) <- moveCursor right e; Ok e
        else
          do e <- deleteAt (cursor e) e;
          backspaceWord fuel' whitespaceness e
      else Ok e
  end.

(** The loop of [KeyTab]; Go's [%] is the remainder of the truncated
    division. *)
Fixpoint tabFill (fuel : nat) (e : Editor) : result Editor :=
  if Z.rem (x (cursor e)) 4 =? 0 then Ok e
  else
    match fuel with
    | O => OutOfFuel
    | S fuel' =>
        do e <- writeAt [chr " "] (cursor e) e;
        do (_, e) <- moveCursor right e;
        tabFill fuel' e
    end.

Fixpoint moveRight (n : nat) (e : Editor) : result Editor :=
  match n with
  | O => Ok e
  | S n' => do (_, e) <- moveCursor right e; moveRight n' e
  end.

(** The loop of [KeyCtrlV] over the lines of the paste buffer. *)
Fixpoint pasteLines (lines : list (list rune)) (e : Editor) : result Editor :=
  match lines with
  | [] => Ok e
  | line :: rest =>
      do e <- writeAt (Escape line) (cursor e) e;
      do e <- moveRight (length line) e;
      do e <-
         (match rest with
          | [] => Ok e
          | _ :: _ =>
              do e <- addLineAt (cursor e) e;
              do (_, e) <- moveCursor right e; Ok e
          end);
      pasteLines rest e
  end.

Fixpoint popLast {A} (l : list A) : option (list A * A) :=
  match l with
  | [] => None
  | [a] => Some ([], a)
  | a :: l' =>
      match popLast l' with
      | Some (init, z) => Some (a :: init, z)
      | None => None
      end
  end.

Definition arrow (fuel : nat) (d : direction) (shift ctrl : bool) (e : Editor)
  : result (flags * Editor) :=
  let fl := shiftFlags shift e in
  if ctrl then
    do cont <- (match d with
                | up | down => differentIndentness e (cursor e)
                | left | right => differentWhitespaceness e (cursor e)
                end);
    do e <- moveCursorUntil fuel d cont e; Ok (fl, e)
  else
    do (_, e) <- moveCursor d e; Ok (fl, e).

(** The [switch ev.Key()]; [prevContent] is the content when the event
    arrived. *)
Definition handleKey (fuel : nat) (prevContent : list rune)
           (k : Key) (shift ctrl : bool) (e : Editor)
  : result (flags * Editor) :=
  match k with
  | KeyEnter =>
      do e <- addLineAt (cursor e) e;
      do (_, e) <- moveCursor right e; Ok (plainFlags, e)
  | KeyBackspace =>
      do (_, e) <- moveCursor left e;
      do whitespaceness <- whitespaceAt e (cursor e);
      do e <- deleteAt (cursor e) e;
      do e <- backspaceWord fuel whitespaceness e; Ok (plainFlags, e)
  | KeyBackspace2 =>
      do (removed, e) <- removeSelection fuel false e;
      match snd removed with
      | [] =>
          do (moved, e) <- moveCursor left e;
          if moved then do e <- deleteAt (cursor e) e; Ok (plainFlags, e)
          else Ok (plainFlags, e)
      | _ :: _ =>
          do e <- backCursor (fst removed) (snd removed) e; Ok (plainFlags, e)
      end
  | KeyDelete =>
      do (removed, e) <- removeSelection fuel false e;
      match snd removed with
      | [] => do e <- deleteAt (cursor e) e; Ok (plainFlags, e)
      | _ :: _ =>
          do e <- backCursor (fst removed) (snd removed) e; Ok (plainFlags, e)
      end
  | KeyTab =>
      do e <- writeAt [chr " "] (cursor e) e;
      do (_, e) <- moveCursor right e;
      do e <- tabFill fuel e; Ok (plainFlags, e)
  | KeyRune r =>
      do e <- writeAt (Escape [r]) (cursor e) e;
      do (_, e) <- moveCursor right e; Ok (plainFlags, e)
  | KeyPgUp =>
      let fl := shiftFlags shift e in
      do e <- page (Z.to_nat (snd (Screen e))) up e; Ok (fl, e)
  | KeyPgDn =>
      let fl := shiftFlags shift e in
      do e <- page (Z.to_nat (snd (Screen e))) down e; Ok (fl, e)
  | KeyHome =>
      let fl := shiftFlags shift e in
      do e <- redraw (setLineOffset 0 (setCursorPoint (mkPoint 0 0) e));
      do e <- setCursor e; Ok (fl, e)
  | KeyEnd =>
      let fl := shiftFlags shift e in
      let e := setLineOffset (maxInt [0; len (screenBuffer e) - halfHeight e]) e in
      let e := setCursorY (len (screenBuffer e) - lineOffset e - 1) e in
      do row <- at' (screenBuffer e) (y (cursor e));
      let e := setCursorX (len row) e in
      do e <- redraw e;
      do e <- setCursor e; Ok (fl, e)
  | KeyCtrlZ =>
      let fl := mkFlags false false None false in
      match popLast (undoPatches e) with
      | None => Ok (fl, e)
      | Some (rest, toApply) =>
          let e := setUndoPatches rest e in
          let '(newContent, applied) :=
            PatchApply differ (patches toApply) prevContent in
          do ok <- at' applied 0;
          if ok then
            let e := setRedoPatches
                       (redoPatches e
                          ++ [mkPatch (patchCursor toApply)
                                      (PatchMake differ newContent prevContent)])
                       e in
            let e := setCursorPoint (patchCursor toApply)
                       (setRawBuffer (stringToRunes newContent) e) in
            do e <- redraw e; Ok (fl, e)
          else Ok (fl, e)
      end
  | KeyCtrlY =>
      let fl := mkFlags true false None false in
      match popLast (redoPatches e) with
      | None => Ok (fl, e)
      | Some (rest, toApply) =>
          let e := setRedoPatches rest e in
          let '(newContent, applied) :=
            PatchApply differ (patches toApply) prevContent in
          do ok <- at' applied 0;
          if ok then
            let e := setCursorPoint (patchCursor toApply)
                       (setRawBuffer (stringToRunes newContent) e) in
            do e <- redraw e; Ok (fl, e)
          else Ok (fl, e)
      end
  | KeyCtrlC => do e <- copySelection fuel e; Ok (plainFlags, e)
  | KeyCtrlX =>
      do (_, e) <- removeSelection fuel true e;
      do e <- setCursor e; Ok (plainFlags, e)
  | KeyCtrlV => do e <- pasteLines (pasteBuffer e) e; Ok (plainFlags, e)
  | KeyCtrlW => Ok (mkFlags true true None true, e)
  | KeyUp => arrow fuel up shift ctrl e
  | KeyDown => arrow fuel down shift ctrl e
  | KeyLeft => arrow fuel left shift ctrl e
  | KeyRight => arrow fuel right shift ctrl e
  | KeyEsc =>
      let e := setSelecting false e in
      do e <- removeToken fuel selectToPattern e;
      do e <- removeToken fuel selectFromPattern e; Ok (plainFlags, e)
  | KeyOther => Ok (plainFlags, e)
  end.

(** What follows the switch: the selection markers. *)
Definition updateSelection (fuel : nat) (selFrom : option point) (e : Editor)
  : result Editor :=
  if selecting e then
    match selFrom with
    | None => Ok (setSelecting false e)
    | Some _ =>
        do e <- removeToken fuel selectToPattern e;
        writeAt selectToToken (cursor e) e
    end
  else
    match selFrom with
    | None => Ok e
    | Some from =>
        let e := setSelecting true e in
        do e <- removeToken fuel selectToPattern e;
        do e <- removeToken fuel selectFromPattern e;
        match sortPoints [from; cursor e] with
        | [ps0; ps1] =>
            let mark (p : point) (e : Editor) :=
              if eqb_point p (cursor e) then writeAt selectToToken p e
              else writeAt selectFromToken p e in
            do e <- mark ps1 e;
            mark ps0 e
        | _ => Panic IndexOutOfRange
        end
    end.

(** What follows the switch: the undo and redo stacks. *)
Definition record (fl : flags) (prevContent : list rune) (prevCursor : point)
           (e : Editor) : Editor :=
  let e :=
    if storeUndo fl then
      let newContent := runesToString (rawBuffer e) in
      if eqb_runes newContent prevContent then e
      else setUndoPatches
             (undoPatches e
                ++ [mkPatch prevCursor (PatchMake differ newContent prevContent)])
             e
    else e in
  if clearRedo fl then setRedoPatches [] e else e.

(** One round of the loop, for one event; [None] when the loop returns. *)
Definition pollKey (fuel : nat) (ev : Event) (e : Editor)
  : result (option Editor) :=
  let prevContent := runesToString (rawBuffer e) in
  let prevCursor := cursor e in
  do (fl, e) <-
     (match ev with
      | EventResize width height =>
          do e <- redraw (setScreen (width, height) e);
          do e <- setCursor e; Ok (plainFlags, e)
      | EventKey k shift ctrl => handleKey fuel prevContent k shift ctrl e
      end);
  if quit fl then Ok None
  else
    do e <- updateSelection fuel (selectFrom fl) e;
    Ok (Some (record fl prevContent prevCursor e)).

Fixpoint pollKeys (fuel : nat) (evs : list Event) (e : Editor)
  : result (option Editor) :=
  match evs with
  | [] => Ok (Some e)
  | ev :: evs' =>
      do r <- pollKey fuel ev e;
      match r with
      | Some e => pollKeys fuel evs' e
      | None => Ok None
      end
  end.

(** [Edit] on a display of the given size that delivers the given events:
    the editor when the events are used up, [None] when Ctrl-W ended the
    session before. *)
Definition Edit (fuel : nat) (size : Z * Z) (events : list Event)
           (s : list rune) : result (option Editor) :=
  let e := mkEditor size (stringToRunes s) [] [] 0 false [] [] [] (mkPoint 0 0) in
  do e <- redraw e;
  do e <- setCursor e;
  pollKeys fuel events e.

(** [Content] *)
Definition Content (e : Editor) : list rune := runesToString (rawBuffer e).

End Editor.

(** ** The first iteration of [replace]

    The superseded first iteration of the engine ([src/editor.go] lines
    197-254) flattens the raw buffer itself, with one index entry per rune
    and per line break and none after the last rune.  [V1.lookups] is the
    raw branch of that method up to the two lookups of its first round
    (lines 198-228), the place of its TODO. *)

Module V1.

(** The loop over the runes of a line; [ix] is the variable [x], which
    keeps its value when the line is empty. *)
Fixpoint indexLine (ix iy : Z) (next : Z) (line : list rune)
  : Z * list point :=
  match line with
  | [] => (ix, [])
  | _ :: rest =>
      let '(ix', ps) := indexLine next iy (next + 1) rest in
      (ix', mkPoint next iy :: ps)
  end.

Fixpoint flattenLines (ix iy n : Z) (lines : list (list rune))
  : list rune * list point :=
  match lines with
  | [] => ([], [])
  | line :: rest =>
      let '(ix', ps) := indexLine ix iy 0 line in
      let '(content, contentIndex) := flattenLines ix' (iy + 1) n rest in
      if iy + 1 <? n
      then (line ++ newline :: content, ps ++ mkPoint (ix' + 1) iy :: contentIndex)
      else (line ++ content, ps ++ contentIndex)
  end.

Definition lookups (contentBuffer : list (list rune)) (p : Regex.Regexp)
  : result (option (point * point)) :=
  let '(content, contentIndex) :=
    flattenLines 0 0 (len contentBuffer) contentBuffer in
  match Regex.FindStringIndex p content with
  | None => Ok None
  | Some (m0, m1) =>
      do contentStartIndex <- orPanic (nth_error contentIndex m0) IndexOutOfRange;
      do contentEndIndex <- orPanic (nth_error contentIndex m1) IndexOutOfRange;
      Ok (Some (contentStartIndex, contentEndIndex))
  end.

End V1.

(** * The vocabulary of the statements *)

(** The text of [TestParse]. *)
Definition testParseText : list rune :=
  runes "abc" ++ newline :: runes "<select-from>def<select-to>"
        ++ newline :: runes "ghi".

(** Every token but the last is made by a setter other than [setEof]. *)
Definition inner (t : token) : Prop := eof t = false.

(** While no eof token has been seen, the raw index has one entry per rune
    of [flatRaw], the [i]-th entry holding offset [i], and the screen index
    one entry per rune of [flatScreen]. *)
Definition aligned (f : flattened) : Prop :=
  map flatRaw (rawIndex f) = map Z.of_nat (seq 0 (length (flatRawRunes f)))
  /\ length (screenIndex f) = length (flatScreen f).

(** A rune that the tokenizer passes through in state [visible]. *)
Definition passes (c : rune) : Prop := c <> chr "&" /\ c <> chr "<".

(** A pattern without alternation and star is a row of tests, one per
    rune. *)
Fixpoint tests (r : Regex.re) : option (list (rune -> bool)) :=
  match r with
  | Regex.Empty => Some []
  | Regex.Lit c => Some [fun d => d =? c]
  | Regex.Class f => Some [f]
  | Regex.Cat a b =>
      match tests a, tests b with
      | Some ta, Some tb => Some (ta ++ tb)
      | _, _ => None
      end
  | Regex.Group _ a => tests a
  | _ => None
  end.

(** [s] starts with runes that pass the tests, one each. *)
Fixpoint passesTests (ts : list (rune -> bool)) (s : list rune) : bool :=
  match ts, s with
  | [], _ => true
  | f :: ts', c :: s' => f c && passesTests ts' s'
  | _ :: _, [] => false
  end.

(** A well-formed colour tag, [<color:RRGGBB:RRGGBB>] with six hexadecimal
    digits each. *)
Definition colorTag (t : list rune) : Prop :=
  exists fgHex bgHex,
    t = runes "<color:" ++ fgHex ++ chr ":" :: bgHex ++ [chr ">"]
    /\ length fgHex = 6%nat /\ length bgHex = 6%nat
    /\ forallb isHex fgHex = true /\ forallb isHex bgHex = true.

(** A text that holds a well-formed colour tag somewhere. *)
Definition containsColorTag (b : list rune) : Prop :=
  exists pre t post, b = pre ++ t ++ post /\ colorTag t.

(** The tests of the colour pattern. *)
Definition colorTests : list (rune -> bool) :=
  match tests colorTagPattern with
  | Some ts => ts
  | None => []
  end.

(** A style token comes from a span that holds a colour tag. *)
Definition styleFromColorTag (t : token) : Prop :=
  style t <> None -> containsColorTag (buffer t).

(** A key without modifiers. *)
Definition key (k : Key) : Event := EventKey k false false.

(** The contract of the diff library that undo relies on: the patches made
    from [a] to [b], applied to [a], give [b], and the first of them
    reports that it applied. *)
Definition differ_contract (differ : Differ) : Prop :=
  forall a b, a <> b ->
              exists rest,
                PatchApply differ (PatchMake differ a b) a = (b, true :: rest).

(** The simplest differ that meets the contract: one patch that holds both
    texts and applies to the first of them only. *)
Definition applyWhole (ps : list (list rune * list rune)) (text : list rune)
  : list rune * list bool :=
  fold_left
    (fun acc p =>
       if eqb_runes (fst acc) (fst p) then (snd p, snd acc ++ [true])
       else (fst acc, snd acc ++ [false]))
    ps (text, []).

Definition wholeText : Differ :=
  mkDiffer (fun a b => if eqb_runes a b then [] else [(a, b)]) applyWhole.

(** The invariant of the line offset:
    [0 <= lineOffset <= max(0, screenLineCount - viewportHeight/2)]. *)
Definition lineOffsetInvariant (differ : Differ) (e : Editor differ) : Prop :=
  0 <= lineOffset e
  <= Z.max 0 (len (screenBuffer e) - halfHeight e).

(** The four lines a, b, c, d. *)
Definition fourLines : list rune :=
  runes "a" ++ newline :: runes "b" ++ newline :: runes "c"
        ++ newline :: runes "d".

(** The screen buffer is the rendering of the raw buffer. *)
Definition synced (differ : Differ) (e : Editor differ) : Prop :=
  noScreen e = false
  /\ wrap (fst (Screen e)) (rawBuffer e)
     = Some (screenBuffer e, screenBufferIndex e).

(** The three escape sequences. *)
Definition isEscape (esc : list rune) : Prop :=
  esc = runes "&amp;" \/ esc = runes "&gt;" \/ esc = runes "&lt;".

(** The number of runes [deleteAt] removes at a raw position where the rest
    of the line is [rest]. *)
Definition removedWidth (rest : list rune) : Z :=
  if (len rest >? 5) && eqb_runes (firstn 5 rest) (runes "&amp;") then 5
  else if (len rest >? 4) && eqb_runes (firstn 4 rest) (runes "&gt;") then 4
  else if (len rest >? 4) && eqb_runes (firstn 4 rest) (runes "&lt;") then 4
  else 1.

(** A history: the content before the first edit, then for each edit the
    cursor before it and the content after it. *)
Definition history := list (point * list rune).

(** The content after the last edit of a history. *)
Fixpoint lastContent (c0 : list rune) (steps : history) : list rune :=
  match steps with
  | [] => c0
  | (_, c1) :: rest => lastContent c1 rest
  end.

(** Every edit of the history changed the content. *)
Fixpoint changing (c0 : list rune) (steps : history) : Prop :=
  match steps with
  | [] => True
  | (_, c1) :: rest => c1 <> c0 /\ changing c1 rest
  end.

(** The undo and the redo stack of an editor. *)
Definition stacks (differ : Differ) (e : Editor differ)
  : list (patch differ) * list (patch differ) :=
  (undoPatches e, redoPatches e).

(** The events that edit or move: all but Ctrl-Z and Ctrl-Y. *)
Definition isEdit (ev : Event) : bool :=
  match ev with
  | EventKey KeyCtrlZ _ _ | EventKey KeyCtrlY _ _ => false
  | _ => true
  end.

(** What the edits of a history push on the undo stack, oldest first. *)
Fixpoint undoEntries (differ : Differ) (c0 : list rune) (steps : history)
  : list (patch differ) :=
  match steps with
  | [] => []
  | (cur, c1) :: rest =>
      mkPatch differ cur (PatchMake differ c1 c0) :: undoEntries differ c1 rest
  end.

(** What undoing a whole history pushes on the redo stack. *)
Fixpoint redoEntries (differ : Differ) (c0 : list rune) (steps : history)
  : list (patch differ) :=
  match steps with
  | [] => []
  | (cur, c1) :: rest =>
      redoEntries differ c1 rest ++ [mkPatch differ cur (PatchMake differ c0 c1)]
  end.

(** * Properties *)

(** ** Fuel *)

Lemma replaceLoop_more_fuel (Q : Type)
      (query : Q -> list rune -> segment -> segment -> bool * Q)
      (p : Regex.Regexp) (repl haystack : list rune)
      (haystackIndex : list flatIndex) (k : nat) :
  forall fuel resRunes haystackOffset q,
    replaceLoop query fuel p repl haystack haystackIndex resRunes
                haystackOffset q <> OutOfFuel ->
    replaceLoop query (fuel + k) p repl haystack haystackIndex resRunes
                haystackOffset q
    = replaceLoop query fuel p repl haystack haystackIndex resRunes
                  haystackOffset q.
Proof.
  induction fuel as [ | fuel IH]; intros resRunes haystackOffset q H.
  - simpl in H. congruence.
  - simpl in H. simpl.
    destruct (Regex.FindStringIndex p (from haystackOffset haystack))
      as [ [m0 m1] | ]; [ | reflexivity].
    destruct (nth_error (from haystackOffset haystackIndex) m0)
      as [startIndex | ]; [ | reflexivity].
    destruct (nth_error (from haystackOffset haystackIndex) m1)
      as [endIndex | ]; [ | reflexivity].
    simpl in *.
    destruct (query q _ _ _) as [yes q'].
    destruct yes.
    + destruct ((0 <=? flatRaw startIndex)
                && (flatRaw startIndex <=? len resRunes)); [ | reflexivity].
      simpl in *.
      destruct (Z.of_nat (haystackOffset + m1) >? len haystack - 1);
        [reflexivity | ].
      apply IH. exact H.
    + simpl in *.
      destruct (Z.of_nat (haystackOffset + m1) >? len haystack - 1);
        [reflexivity | ].
      apply IH. exact H.
Qed.

Lemma replace_more_fuel (Q : Type)
      (query : Q -> list rune -> segment -> segment -> bool * Q)
      (fuel k : nat) (rs : list (list rune)) (raw : bool) (p : Regex.Regexp)
      (repl : list rune) (q : Q) (v : list (list rune) * Q) :
  replace query fuel rs raw p repl q = Ok v ->
  replace query (fuel + k) rs raw p repl q = Ok v.
Proof.
  unfold replace. intros H. rewrite replaceLoop_more_fuel; [exact H | ].
  rewrite H. discriminate.
Qed.

(** ** The tokenizer on the text of [TestParse] *)

(** C3.  On the three lines [abc], [<select-from>def<select-to>], [ghi] the
    tokenizer emits exactly: start; the runes a, b, c at (0,0), (1,0),
    (2,0); newline at (3,0); selectionStart at (0,1); the runes d, e, f at
    (13,1), (14,1), (15,1); selectionEnd at (16,1); newline at (27,1); the
    runes g, h, i at (0,2), (1,2), (2,2); eof at (3,2); each token with the
    raw span it was read from. *)
Theorem parseTokens_TestParse :
  parseTokens (stringToRunes testParseText) =
  [ setStart (makeToken (mkPoint 0 0) []);
    setRune (chr "a") (makeToken (mkPoint 0 0) (runes "a"));
    setRune (chr "b") (makeToken (mkPoint 1 0) (runes "b"));
    setRune (chr "c") (makeToken (mkPoint 2 0) (runes "c"));
    setNewLine (makeToken (mkPoint 3 0) []);
    setSelectStart (makeToken (mkPoint 0 1) (runes "<select-from>"));
    setRune (chr "d") (makeToken (mkPoint 13 1) (runes "d"));
    setRune (chr "e") (makeToken (mkPoint 14 1) (runes "e"));
    setRune (chr "f") (makeToken (mkPoint 15 1) (runes "f"));
    setSelectEnd (makeToken (mkPoint 16 1) (runes "<select-to>"));
    setNewLine (makeToken (mkPoint 27 1) []);
    setRune (chr "g") (makeToken (mkPoint 0 2) (runes "g"));
    setRune (chr "h") (makeToken (mkPoint 1 2) (runes "h"));
    setRune (chr "i") (makeToken (mkPoint 2 2) (runes "i"));
    setEof (makeToken (mkPoint 3 2) []) ].
Proof. vm_compute. reflexivity. Qed.

(** ** Replace on the texts of [TestReplace] *)

(** C1.  In raw space, on the buffer [abc] with pattern [a], replacement [d]
    and a callback that always accepts, [replace] returns the buffer [dbc]
    and has called the callback once, with the match [a], the raw segment
    (0,0)-(1,0) and the screen segment (0,0)-(1,0); on the buffer
    [ab<select-from>c<select-to>] with the selection pattern and the empty
    replacement it returns [ab].  Two rounds of the loop are enough, and
    more fuel changes nothing. *)
Theorem replace_TestReplace :
  forall n : nat,
    replace (recording true) (2 + n) (stringToRunes (runes "abc")) true
            (Regex.MustCompile (Regex.lit (runes "a"))) (runes "d") []
    = Ok ([runes "dbc"],
          [(runes "a", (mkPoint 0 0, mkPoint 1 0), (mkPoint 0 0, mkPoint 1 0))])
    /\
    replace (recording true) (2 + n)
            (stringToRunes (runes "ab<select-from>c<select-to>")) true
            (Regex.MustCompile selectionPattern) [] []
    = Ok ([runes "ab"],
          [(runes "<select-from>c<select-to>",
            (mkPoint 2 0, mkPoint 27 0), (mkPoint 2 0, mkPoint 3 0))]).
Proof.
  intros n. split; apply replace_more_fuel; vm_compute; reflexivity.
Qed.

(** ** The shape of the token stream *)

Ltac break_match :=
  match goal with
  | |- context [match ?X with _ => _ end] =>
      match X with
      | context [match _ with _ => _ end] => fail 1
      | _ => destruct X eqn:?
      end
  | |- context [if ?X then _ else _] =>
      match X with
      | context [if _ then _ else _] => fail 1
      | _ => destruct X eqn:?
      end
  end.

(** A property of the tokens of the rune loop that the newline token has
    too holds for all the tokens between the start and the eof token. *)
Section TokenStream.

Variable P : token -> Prop.
Hypothesis P_parseRune : forall p ix r, Forall P (snd (parseRune p ix r)).
Hypothesis P_setNewLine : forall t, P (setNewLine t).

Lemma parseRunes_all (line : list rune) :
  forall p ix, Forall P (snd (parseRunes p ix line)).
Proof.
  induction line as [ | r rest IH]; intros p ix; simpl.
  - constructor.
  - pose proof (P_parseRune p ix r) as H1.
    destruct (parseRune p ix r) as [p1 out1].
    pose proof (IH p1 (ix + 1)) as H2.
    destruct (parseRunes p1 (ix + 1) rest) as [p2 out2].
    simpl in *. apply Forall_app. split; assumption.
Qed.

Lemma parseLines_all (lines : list (list rune)) :
  forall p iy n, Forall P (snd (parseLines p iy n lines)).
Proof.
  induction lines as [ | line rest IH]; intros p iy n; simpl.
  - constructor.
  - match goal with
    | |- context [parseRunes ?P0 0 line] =>
        pose proof (parseRunes_all line P0 0) as H1;
        destruct (parseRunes P0 0 line) as [p1 out1]
    end.
    destruct (iy + 1 <? n); simpl.
    + match goal with
      | |- context [parseLines ?P0 (iy + 1) n rest] =>
          pose proof (IH P0 (iy + 1) n) as H2;
          destruct (parseLines P0 (iy + 1) n rest) as [p3 out3]
      end.
      simpl in *. apply Forall_app. split; [assumption | ].
      constructor; [apply P_setNewLine | assumption].
    + pose proof (IH p1 (iy + 1) n) as H2.
      destruct (parseLines p1 (iy + 1) n rest) as [p3 out3].
      simpl in *. apply Forall_app. split; assumption.
Qed.

End TokenStream.

Lemma parseRune_inner (p : parser) (ix : Z) (r : rune) :
  Forall inner (snd (parseRune p ix r)).
Proof.
  unfold parseRune, cb.
  repeat (break_match; simpl); repeat constructor.
Qed.

Lemma parseLines_inner (lines : list (list rune)) :
  forall p iy n, Forall inner (snd (parseLines p iy n lines)).
Proof.
  apply parseLines_all; [exact parseRune_inner | reflexivity].
Qed.

(** The stream is the start token, inner tokens, and one eof token. *)
Lemma parseTokens_shape (buf : list (list rune)) :
  exists body p,
    parseTokens buf
    = setStart (makeToken (mkPoint 0 0) []) :: body ++ [setEof p]
    /\ Forall inner body.
Proof.
  unfold parseTokens, cb. simpl.
  match goal with
  | |- context [parseLines ?P 0 (len buf) buf] =>
      pose proof (parseLines_inner buf P 0 (len buf)) as H;
      destruct (parseLines P 0 (len buf) buf) as [p2 out2]
  end.
  simpl in *. eauto.
Qed.

(** ** The index tables of [flattenWithIndex] *)

Lemma spanIndex_length (buf : list rune) :
  forall rawPos scr base offset,
    length (spanIndex buf rawPos scr base offset) = length buf.
Proof.
  induction buf as [ | c buf IH]; intros; simpl; [reflexivity | ].
  rewrite IH. reflexivity.
Qed.

Lemma spanIndex_flatRaw (buf : list rune) :
  forall rawPos scr (n k : nat),
    map flatRaw (spanIndex buf rawPos scr (Z.of_nat n) (Z.of_nat k))
    = map Z.of_nat (seq (n + k) (length buf)).
Proof.
  induction buf as [ | c buf IH]; intros rawPos scr n k; simpl.
  - reflexivity.
  - f_equal; [lia | ].
    replace (Z.of_nat k + 1) with (Z.of_nat (S k)) by lia.
    rewrite IH. f_equal. f_equal. lia.
Qed.

Lemma seq_snoc (n : nat) : seq 0 (S n) = seq 0 n ++ [n].
Proof.
  replace (S n) with (n + 1)%nat by lia. rewrite seq_app. reflexivity.
Qed.

Lemma flattenStep_aligned (f : flattened) (t : token) :
  inner t -> aligned f -> aligned (flattenStep f t).
Proof.
  unfold inner, aligned, flattenStep. intros Ht [Hraw Hscr].
  assert (Hspan : forall b : list rune,
             map flatRaw
                 (rawIndex f ++
                  spanIndex b (pos t) (screenPos f) (len (flatRawRunes f)) 0)
             = map Z.of_nat (seq 0 (length (flatRawRunes f ++ b)))).
  { intros b. rewrite map_app, Hraw, length_app, seq_app, map_app. f_equal.
    unfold len. change 0 with (Z.of_nat 0).
    rewrite spanIndex_flatRaw. f_equal. f_equal. lia. }
  destruct (rune' t) as [r | ]; simpl.
  - split; [apply Hspan | ]. rewrite !length_app. simpl. lia.
  - destruct (newLine t); simpl.
    + split.
      * rewrite map_app, Hraw, length_app. simpl.
        replace (length (flatRawRunes f) + 1)%nat
          with (S (length (flatRawRunes f))) by lia.
        rewrite seq_snoc, map_app. reflexivity.
      * rewrite !length_app. simpl. lia.
    + rewrite Ht. simpl. split; [apply Hspan | exact Hscr].
Qed.

Lemma fold_flattenStep_aligned (ts : list token) :
  forall f, Forall inner ts -> aligned f ->
            aligned (fold_left flattenStep ts f).
Proof.
  induction ts as [ | t ts IH]; intros f Hts Hf; simpl; [exact Hf | ].
  inversion Hts; subst. apply IH; [assumption | ].
  apply flattenStep_aligned; assumption.
Qed.

(** After the eof token each table has one entry more than its haystack,
    and the raw index counts the offsets of [flatRaw] from 0 to its
    length. *)
Lemma flattenWithIndex_tables (rs : list (list rune)) :
  let f := flattenWithIndex rs in
  map flatRaw (rawIndex f) = map Z.of_nat (seq 0 (S (length (flatRawRunes f))))
  /\ length (rawIndex f) = S (length (flatRawRunes f))
  /\ length (screenIndex f) = S (length (flatScreen f)).
Proof.
  unfold flattenWithIndex.
  destruct (parseTokens_shape rs) as (body & p & -> & Hbody).
  cbv zeta. simpl. rewrite !fold_left_app.
  match goal with
  | |- context [fold_left flattenStep body ?F] =>
      assert (Ha : aligned (fold_left flattenStep body F));
      [ apply fold_flattenStep_aligned; [exact Hbody | split; reflexivity]
      | destruct (fold_left flattenStep body F) as [fr fs ri si sp] ]
  end.
  destruct Ha as [Hraw Hscr]. simpl in *.
  assert (H1 : map flatRaw (ri ++ [mkFlatIndex (pos p) sp (len fr)])
               = map Z.of_nat (seq 0 (S (length fr)))).
  { rewrite map_app, Hraw, seq_snoc, map_app. reflexivity. }
  split; [exact H1 | ]. split.
  - apply (f_equal (@length Z)) in H1.
    rewrite !length_map, length_seq in H1. exact H1.
  - rewrite length_app. simpl. lia.
Qed.

Lemma nth_error_seq0 (m i : nat) :
  (i < m)%nat -> nth_error (seq 0 m) i = Some i.
Proof.
  intros H. rewrite (nth_error_nth' _ 0%nat); [ | rewrite length_seq; exact H].
  rewrite seq_nth; [reflexivity | exact H].
Qed.

Lemma rawIndex_offset (rs : list (list rune)) (i : nat) (a : flatIndex) :
  nth_error (rawIndex (flattenWithIndex rs)) i = Some a ->
  flatRaw a = Z.of_nat i.
Proof.
  intros H.
  destruct (flattenWithIndex_tables rs) as (Hmap & Hlen & _).
  assert (Hi : (i < S (length (flatRawRunes (flattenWithIndex rs))))%nat).
  { rewrite <- Hlen. apply nth_error_Some. rewrite H. discriminate. }
  apply (map_nth_error flatRaw) in H. rewrite Hmap in H.
  rewrite (map_nth_error Z.of_nat _ _ (nth_error_seq0 Hi)) in H.
  congruence.
Qed.

(** C2.  For the buffer [ab<select-from>c<select-to>], [flatScreen] is [abc]
    and [flatRaw] is the input itself; and for every buffer the [flatRaw]
    offsets of the entries of [rawIndex] never decrease from one entry to a
    later one. *)
Theorem flattenWithIndex_TestFlatten_and_offsets_nondecreasing :
  (let f := flattenWithIndex
              (stringToRunes (runes "ab<select-from>c<select-to>")) in
   flatScreen f = runes "abc"
   /\ flatRawRunes f = runes "ab<select-from>c<select-to>")
  /\
  (forall (rs : list (list rune)) (i j : nat) (a b : flatIndex),
      (i <= j)%nat ->
      nth_error (rawIndex (flattenWithIndex rs)) i = Some a ->
      nth_error (rawIndex (flattenWithIndex rs)) j = Some b ->
      flatRaw a <= flatRaw b).
Proof.
  split.
  - vm_compute. split; reflexivity.
  - intros rs i j a b Hij Ha Hb.
    rewrite (rawIndex_offset rs i Ha), (rawIndex_offset rs j Hb). lia.
Qed.

Lemma flattenWithIndex_offsets_nondecreasing_witness :
  (0 <= 16)%nat
  /\ flatRaw (mkFlatIndex (mkPoint 0 0) (mkPoint 0 0) 0)
     <= flatRaw (mkFlatIndex (mkPoint 16 0) (mkPoint 3 0) 16).
Proof.
  split; [lia | ].
  apply (proj2 flattenWithIndex_TestFlatten_and_offsets_nondecreasing
               (stringToRunes (runes "ab<select-from>c<select-to>")) 0%nat 16%nat).
  - lia.
  - vm_compute. reflexivity.
  - vm_compute. reflexivity.
Defined.

(** ** Plain text *)

Lemma appendToLast_snoc {A} (res : list (list A)) (l : list A) (v : A) :
  appendToLast (res ++ [l]) v = Some (res ++ [l ++ [v]]).
Proof.
  induction res as [ | l0 res IH]; simpl; [reflexivity | ].
  rewrite IH. destruct (res ++ [l]) eqn:E; [ | reflexivity].
  destruct res; discriminate.
Qed.

Lemma nonempty_snoc {A} (l : list A) :
  l <> [] -> exists init z, l = init ++ [z].
Proof.
  intros H. destruct (exists_last H) as (init & z & ->). eauto.
Qed.

Lemma plainStep_nonempty (res : list (list rune)) (t : token) :
  res <> [] -> exists res', plainStep (Some res) t = Some res' /\ res' <> [].
Proof.
  intros H. destruct (nonempty_snoc H) as (init & z & ->).
  unfold plainStep.
  destruct (start t).
  - eexists. split; [reflexivity | ]. intros E. destruct init; discriminate.
  - destruct (rune' t) as [r | ].
    + rewrite appendToLast_snoc. eexists. split; [reflexivity | ].
      intros E. destruct init; discriminate.
    + destruct (newLine t); eexists; (split; [reflexivity | ]);
        intros E; destruct init; discriminate.
Qed.

Lemma fold_plainStep_nonempty (ts : list token) :
  forall res, res <> [] ->
              exists res', fold_left plainStep ts (Some res) = Some res'.
Proof.
  induction ts as [ | t ts IH]; intros res H; cbn [fold_left]; [eauto | ].
  destruct (plainStep_nonempty t H) as (res' & -> & H').
  apply IH. exact H'.
Qed.

(** [plain] never panics: the start token makes the first line before any
    rune is appended. *)
Lemma plain_some (r : list (list rune)) : exists v, plain r = Some v.
Proof.
  unfold plain. destruct (parseTokens_shape r) as (body & p & -> & _).
  simpl. apply fold_plainStep_nonempty. discriminate.
Qed.

Lemma parseRunes_passes (line : list rune) :
  forall p ix,
    state p = visible -> buffer (tok p) = [] -> Forall passes line ->
    exists p' out,
      parseRunes p ix line = (p', out)
      /\ state p' = visible /\ buffer (tok p') = []
      /\ map rune' out = map Some line
      /\ Forall (fun t => start t = false) out.
Proof.
  induction line as [ | r rest IH]; intros p ix Hs Hb Hl; simpl.
  - exists p, []. repeat split; auto.
  - inversion Hl as [ | r' rest' [Hamp Hlt] Hrest]; subst.
    unfold parseRune. rewrite Hs, Hb.
    apply Z.eqb_neq in Hamp. apply Z.eqb_neq in Hlt. rewrite Hamp, Hlt.
    unfold cb.
    match goal with
    | |- context [parseRunes ?P (ix + 1) rest] =>
        destruct (IH P (ix + 1)) as (p' & out & E & Hs' & Hb' & Hm & Hst);
        [reflexivity | reflexivity | exact Hrest | rewrite E]
    end.
    exists p', (setRune r (withPosX ix (withBuffer ([] ++ [r]) (tok p))) :: out).
    repeat split; auto. simpl. rewrite Hm. reflexivity.
Qed.

Lemma fold_plainStep_runes (out : list token) :
  forall line res l,
    map rune' out = map Some line ->
    Forall (fun t => start t = false) out ->
    fold_left plainStep out (Some (res ++ [l])) = Some (res ++ [l ++ line]).
Proof.
  induction out as [ | t out IH]; intros line res l Hm Hst.
  - destruct line; [ | discriminate]. simpl. rewrite app_nil_r. reflexivity.
  - destruct line as [ | r line]; [discriminate | ].
    simpl in Hm. inversion Hm as [[Hr Hm']]. inversion Hst; subst.
    cbn [fold_left]. unfold plainStep at 2.
    match goal with H : start t = false |- _ => rewrite H end.
    rewrite Hr, appendToLast_snoc.
    rewrite (IH line res (l ++ [r]) Hm'); [ | assumption].
    rewrite <- app_assoc. reflexivity.
Qed.

Lemma parseLines_passes (lines : list (list rune)) :
  forall p iy n res l line,
    state p = visible -> buffer (tok p) = [] ->
    Forall (Forall passes) (line :: lines) ->
    n = iy + len (line :: lines) ->
    fold_left plainStep (snd (parseLines p iy n (line :: lines)))
              (Some (res ++ [l]))
    = Some (res ++ (l ++ line) :: lines).
Proof.
  induction lines as [ | line' rest IH];
    intros p iy n res l line Hs Hb Hall Hn;
    inversion Hall as [ | ? ? Hline Hrest]; subst.
  - simpl.
    match goal with
    | |- context [parseRunes ?P 0 line] =>
        destruct (@parseRunes_passes line P 0)
          as (p1 & out1 & E & Hs1 & Hb1 & Hm & Hst);
        [exact Hs | exact Hb | exact Hline | rewrite E]
    end.
    replace (iy + 1 <? iy + len [line]) with false
      by (symmetry; apply Z.ltb_ge; unfold len; simpl; lia).
    simpl. rewrite app_nil_r.
    apply fold_plainStep_runes; assumption.
  - remember (line' :: rest) as more eqn:Emore.
    simpl.
    match goal with
    | |- context [parseRunes ?P 0 line] =>
        destruct (@parseRunes_passes line P 0)
          as (p1 & out1 & E & Hs1 & Hb1 & Hm & Hst);
        [exact Hs | exact Hb | exact Hline | rewrite E]
    end.
    replace (iy + 1 <? iy + len (line :: more)) with true
      by (symmetry; apply Z.ltb_lt; subst more; unfold len; simpl; lia).
    unfold cb.
    match goal with
    | |- context [parseLines ?P (iy + 1) ?N more] =>
        pose proof (IH P (iy + 1) N (res ++ [l ++ line]) [] line') as IH';
        rewrite <- Emore in IH';
        destruct (parseLines P (iy + 1) N more) as [p3 out3] eqn:E3
    end.
    simpl. rewrite !fold_left_app.
    rewrite (@fold_plainStep_runes out1 line res l Hm Hst).
    simpl. simpl in IH'. rewrite IH'; auto.
    + subst more. rewrite <- app_assoc. reflexivity.
    + unfold len. simpl length. lia.
Qed.

Lemma plain_passes (line : list rune) (lines : list (list rune)) :
  Forall (Forall passes) (line :: lines) ->
  plain (line :: lines) = Some (line :: lines).
Proof.
  intros H. unfold plain, parseTokens, cb.
  match goal with
  | |- context [parseLines ?P 0 ?N (line :: lines)] =>
      pose proof (@parseLines_passes lines P 0 N [] [] line) as HL;
      destruct (parseLines P 0 N (line :: lines)) as [p2 out2]
  end.
  simpl in *. rewrite fold_left_app, HL; auto.
Qed.

Lemma Split_cons (s : list rune) (sep : rune) :
  exists line lines, Strings.Split s sep = line :: lines.
Proof.
  induction s as [ | c s (line & lines & IH)]; simpl; [eauto | ].
  destruct (c =? sep); [eauto | ]. rewrite IH. eauto.
Qed.

Lemma Split_Forall (P : rune -> Prop) (s : list rune) (sep : rune) :
  Forall P s -> Forall (Forall P) (Strings.Split s sep).
Proof.
  induction s as [ | c s IH]; intros H; simpl.
  - repeat constructor.
  - inversion H; subst. specialize (IH ltac:(assumption)).
    destruct (c =? sep); [constructor; [constructor | exact IH] | ].
    destruct (Strings.Split s sep) as [ | l ls].
    + repeat constructor. assumption.
    + inversion IH; subst. constructor; [constructor | ]; assumption.
Qed.

(** Joining the lines that [stringToRunes] split gives the text back. *)
Lemma runesToString_stringToRunes (s : list rune) :
  runesToString (stringToRunes s) = s.
Proof.
  unfold stringToRunes. induction s as [ | c s IH]; simpl; [reflexivity | ].
  destruct (c =? newline) eqn:E.
  - apply Z.eqb_eq in E. subst c.
    destruct (Split_cons s newline) as (l & ls & Hs).
    rewrite Hs in *. rewrite <- IH. reflexivity.
  - destruct (Split_cons s newline) as (l & ls & Hs).
    rewrite Hs in *. rewrite <- IH. destruct ls; reflexivity.
Qed.

Lemma replaceFrom_absent (c : rune) (new s : list rune) :
  Forall (fun r => r <> c) s -> Strings.replaceFrom s [c] new 0 = s.
Proof.
  induction s as [ | r s IH]; intros H; simpl; [reflexivity | ].
  inversion H as [ | ? ? Hr Hs]; subst.
  apply Z.eqb_neq in Hr. rewrite Hr. simpl. rewrite IH; auto.
Qed.

(** On code points: for every sequence [s] of runes without [&], [<] and
    [>], escaping, tokenizing and decoding gives [s] back. *)
Lemma PlainText_Escape_code_points (s : list rune) :
  Forall (fun c => c <> chr "&" /\ c <> chr "<" /\ c <> chr ">") s ->
  PlainText (Escape s) = Some s.
Proof.
  intros H.
  assert (HE : Escape s = s).
  { unfold Escape, Strings.ReplaceAll. simpl runes.
    rewrite (@replaceFrom_absent (chr "&") _ s);
      [ | eapply Forall_impl; [ | exact H]; simpl; tauto].
    rewrite (@replaceFrom_absent (chr "<") _ s);
      [ | eapply Forall_impl; [ | exact H]; simpl; tauto].
    apply replaceFrom_absent.
    eapply Forall_impl; [ | exact H]; simpl; tauto. }
  rewrite HE. unfold PlainText.
  assert (Hp : Forall passes s).
  { eapply Forall_impl; [ | exact H]. unfold passes. simpl. tauto. }
  pose proof (Split_Forall newline Hp) as Hl.
  pose proof (runesToString_stringToRunes s) as Hj.
  unfold stringToRunes in *.
  destruct (Split_cons s newline) as (l & ls & Hs). rewrite Hs in *.
  rewrite (plain_passes Hl). cbn [option_map]. rewrite Hj. reflexivity.
Qed.

(** ** Strings of bytes

    A valid UTF-8 string is read rune by rune and written back byte for
    byte, so on such a string the functions on bytes do what the functions
    on code points do. *)

Lemma Utf8_within_spec (lo hi b : Z) :
  Utf8.within lo hi b = true <-> lo <= b <= hi.
Proof.
  unfold Utf8.within. rewrite andb_true_iff, !Z.leb_le. tauto.
Qed.

Lemma Utf8_accept_spec (b0 : Z) (n : nat) (lo hi : Z) :
  Utf8.accept b0 = Some (n, lo, hi) ->
  (n = 2%nat /\ 194 <= b0 <= 223 /\ lo = 128 /\ hi = 191)
  \/ (n = 3%nat /\ 224 <= b0 <= 239 /\ 128 <= lo /\ hi <= 191
      /\ (b0 = 224 -> lo = 160) /\ (b0 = 237 -> hi = 159))
  \/ (n = 4%nat /\ 240 <= b0 <= 244 /\ 128 <= lo /\ hi <= 191
      /\ (b0 = 240 -> lo = 144) /\ (b0 = 244 -> hi = 143)).
Proof.
  unfold Utf8.accept.
  repeat match goal with
         | |- context [if ?c then _ else _] =>
             let E := fresh "E" in
             destruct c eqn:E;
             [ try apply Utf8_within_spec in E; try apply Z.eqb_eq in E
             | try (apply not_true_iff_false in E; rewrite Utf8_within_spec in E);
               try apply Z.eqb_neq in E ]
         end;
    intros H; inversion H; subst; lia.
Qed.

(** Linear arithmetic with quotients and remainders by constants. *)
Ltac euclid := Z.div_mod_to_equations; lia.

(** Settle a test on bytes or runes whose outcome follows from the
    hypotheses. *)
Ltac settle c :=
  first
    [ replace c with true
        by (symmetry; unfold Utf8.continues, Utf8.within;
            rewrite ?andb_true_iff, ?orb_true_iff, ?Z.ltb_lt, ?Z.leb_le, ?Z.eqb_eq;
            euclid)
    | replace c with false
        by (symmetry; unfold Utf8.continues, Utf8.within;
            rewrite ?andb_false_iff, ?orb_false_iff, ?Z.ltb_ge, ?Z.leb_gt,
              ?Z.eqb_neq;
            euclid) ].

Ltac settle_ifs :=
  repeat match goal with
         | |- context [if ?c then _ else _] => settle c
         end.

(** A valid text starts with the encoding of a rune that [decode] reads
    back, and goes on with a valid text. *)
Lemma Utf8_valid_step (s : list Z) :
  Utf8.valid s = true ->
  s = []
  \/ exists seq rest r,
      s = seq ++ rest /\ seq <> [] /\ Utf8.valid rest = true
      /\ (forall t, Utf8.decode (seq ++ t) = r :: Utf8.decode t)
      /\ Utf8.encodeRune r = seq
      /\ ((seq = [r] /\ 0 <= r <= 127)
          \/ (128 <= r /\ Forall (fun b => 128 <= b) seq)).
Proof.
  destruct s as [ | b0 s1]; [auto | ]. intros H. right.
  cbn [Utf8.valid] in H.
  destruct (Utf8.within 0 127 b0) eqn:E0.
  - apply Utf8_within_spec in E0 as R0.
    exists [b0], s1, b0. repeat split; try assumption; try discriminate.
    + intros t. cbn [app Utf8.decode]. rewrite E0. reflexivity.
    + unfold Utf8.encodeRune. settle_ifs. reflexivity.
    + left. split; [reflexivity | lia].
  - destruct (Utf8.accept b0) as [ [ [n lo] hi] | ] eqn:Ea; [ | discriminate].
    pose proof (Utf8_accept_spec _ Ea) as Hspec.
    destruct Hspec as [ (-> & R0 & -> & ->) | [ (-> & R0 & L & U & L0 & U0)
                                              | (-> & R0 & L & U & L0 & U0) ] ].
    + destruct s1 as [ | b1 s2]; [discriminate | ].
      apply andb_true_iff in H. destruct H as [H1 H].
      apply Utf8_within_spec in H1 as R1.
      exists [b0; b1], s2, ((b0 mod 32) * 64 + b1 mod 64).
      repeat split; try assumption; try discriminate.
      * intros t. cbn [app Utf8.decode]. rewrite E0, Ea, H1. reflexivity.
      * unfold Utf8.encodeRune. settle_ifs. repeat f_equal; euclid.
      * right. split; [euclid | repeat constructor; lia].
    + destruct s1 as [ | b1 [ | b2 s3] ]; try discriminate.
      apply andb_true_iff in H. destruct H as [H12 H].
      apply andb_true_iff in H12 as H12'. destruct H12' as [H1 H2].
      apply Utf8_within_spec in H1 as R1. apply Utf8_within_spec in H2 as R2.
      exists [b0; b1; b2], s3,
        ((b0 mod 16) * 4096 + (b1 mod 64) * 64 + b2 mod 64).
      repeat split; try assumption; try discriminate.
      * intros t. cbn [app Utf8.decode]. rewrite E0, Ea, H12. reflexivity.
      * unfold Utf8.encodeRune. settle_ifs. repeat f_equal; euclid.
      * right. split; [euclid | repeat constructor; lia].
    + destruct s1 as [ | b1 [ | b2 [ | b3 s4] ] ]; try discriminate.
      apply andb_true_iff in H. destruct H as [H123 H].
      apply andb_true_iff in H123 as H123'. destruct H123' as [H12 H3].
      apply andb_true_iff in H12 as H12'. destruct H12' as [H1 H2].
      apply Utf8_within_spec in H1 as R1. apply Utf8_within_spec in H2 as R2.
      apply Utf8_within_spec in H3 as R3.
      exists [b0; b1; b2; b3], s4,
        ((b0 mod 8) * 262144 + (b1 mod 64) * 4096 + (b2 mod 64) * 64 + b3 mod 64).
      repeat split; try assumption; try discriminate.
      * intros t. cbn [app Utf8.decode]. rewrite E0, Ea, H123. reflexivity.
      * unfold Utf8.encodeRune. settle_ifs. repeat f_equal; euclid.
      * right. split; [euclid | repeat constructor; lia].
Qed.

(** Induction on a valid text, one encoded rune at a time. *)
Lemma Utf8_valid_ind (P : list Z -> Prop) :
  P [] ->
  (forall seq rest r,
      seq <> [] -> Utf8.valid rest = true ->
      (forall t, Utf8.decode (seq ++ t) = r :: Utf8.decode t) ->
      Utf8.encodeRune r = seq ->
      (seq = [r] /\ 0 <= r <= 127)
      \/ (128 <= r /\ Forall (fun b => 128 <= b) seq) ->
      P rest -> P (seq ++ rest)) ->
  forall s, Utf8.valid s = true -> P s.
Proof.
  intros Hnil Hstep s.
  remember (length s) as n eqn:Hn. revert s Hn.
  induction n as [n IH] using lt_wf_ind. intros s Hn Hv.
  destruct (Utf8_valid_step s Hv)
    as [-> | (seq & rest & r & -> & Hne & Hr & Hd & He & Hc)];
    [exact Hnil | ].
  apply (Hstep seq rest r); try assumption.
  apply (IH (length rest)); [ | reflexivity | exact Hr].
  subst n. rewrite length_app. destruct seq; [congruence | cbn [length]; lia].
Qed.

(** On a valid text, [string([]rune(s))] is [s]. *)
Lemma Utf8_encode_decode (s : list Z) :
  Utf8.valid s = true -> Utf8.encode (Utf8.decode s) = s.
Proof.
  revert s.
  apply (@Utf8_valid_ind (fun s => Utf8.encode (Utf8.decode s) = s));
    [reflexivity | ].
  intros seq rest r _ _ Hd He _ IH.
  rewrite Hd. unfold Utf8.encode in *. cbn [flat_map]. rewrite IH, He.
  reflexivity.
Qed.

(** The runes below 128 of a valid text are its bytes below 128. *)
Lemma Utf8_decode_ascii (s : list Z) :
  Utf8.valid s = true ->
  forall c, 0 <= c <= 127 -> In c (Utf8.decode s) -> In c s.
Proof.
  revert s.
  apply (@Utf8_valid_ind
           (fun s => forall c, 0 <= c <= 127 -> In c (Utf8.decode s) -> In c s));
    [intros c _ [] | ].
  intros seq rest r _ _ Hd He Hc IH c Hr Hin.
  rewrite Hd in Hin. apply in_or_app. destruct Hin as [-> | Hin].
  - destruct Hc as [ [-> _] | [Hge _] ]; [left; left; reflexivity | lia].
  - right. exact (IH c Hr Hin).
Qed.

Lemma Split_prefix (seq rest l : list Z) (ls : list (list Z)) (sep : Z) :
  Forall (fun b => b <> sep) seq ->
  Strings.Split rest sep = l :: ls ->
  Strings.Split (seq ++ rest) sep = (seq ++ l) :: ls.
Proof.
  intros Hseq Hrest. induction Hseq as [ | b seq Hb _ IH]; [exact Hrest | ].
  cbn [app Strings.Split].
  destruct (b =? sep) eqn:E; [apply Z.eqb_eq in E; contradiction | ].
  rewrite IH. reflexivity.
Qed.

(** Splitting a valid text at its line feeds and reading each line gives
    the lines of the runes of the text. *)
Lemma GoString_stringToRunes_decode (s : list Z) :
  Utf8.valid s = true ->
  GoString.stringToRunes s = stringToRunes (Utf8.decode s).
Proof.
  unfold GoString.stringToRunes, stringToRunes.
  revert s.
  apply (@Utf8_valid_ind
           (fun s => map Utf8.decode (Strings.Split s newline)
                     = Strings.Split (Utf8.decode s) newline));
    [reflexivity | ].
  intros seq rest r Hne _ Hd He Hc IH.
  rewrite Hd.
  destruct (Split_cons rest newline) as (l & ls & Hs).
  rewrite Hs in IH. cbn [map] in IH.
  destruct (r =? newline) eqn:E.
  - apply Z.eqb_eq in E. subst r.
    destruct Hc as [ [-> _] | [Hge _] ]; [ | unfold newline in Hge; lia].
    cbn [app Strings.Split]. rewrite Z.eqb_refl, Hs. cbn [map].
    rewrite <- IH. reflexivity.
  - assert (Hseq : Forall (fun b => b <> newline) seq).
    { apply Z.eqb_neq in E.
      destruct Hc as [ [-> _] | [_ Hall] ]; [repeat constructor; exact E | ].
      eapply Forall_impl; [ | exact Hall].
      intros b Hb. cbn in Hb. unfold newline. lia. }
    rewrite (Split_prefix _ Hseq Hs). cbn [map Strings.Split].
    rewrite E, <- IH, Hd. reflexivity.
Qed.

Lemma Utf8_encode_app (a b : list rune) :
  Utf8.encode (a ++ b) = Utf8.encode a ++ Utf8.encode b.
Proof. apply flat_map_app. Qed.

Lemma GoString_runesToString_encode (rs : list (list rune)) :
  GoString.runesToString rs = Utf8.encode (runesToString rs).
Proof.
  induction rs as [ | line rest IH]; [reflexivity | ].
  destruct rest as [ | line' rest']; [reflexivity | ].
  change (GoString.runesToString (line :: line' :: rest'))
    with (Utf8.encode line ++ newline :: GoString.runesToString (line' :: rest')).
  change (runesToString (line :: line' :: rest'))
    with (line ++ newline :: runesToString (line' :: rest')).
  rewrite IH, Utf8_encode_app. reflexivity.
Qed.

(** C4 (amended).  For every text [s] that is valid UTF-8 and has none of
    the characters [&], [<] and [>], [PlainText(Escape(s))] returns [s]. *)
Theorem PlainText_Escape_roundtrip_valid_utf8 (s : list Z) :
  Utf8.valid s = true ->
  Forall (fun b => b <> chr "&" /\ b <> chr "<" /\ b <> chr ">") s ->
  GoString.PlainText (Escape s) = Some s.
Proof.
  intros Hv H.
  assert (HE : Escape s = s).
  { unfold Escape, Strings.ReplaceAll. simpl runes.
    rewrite (@replaceFrom_absent (chr "&") _ s);
      [ | eapply Forall_impl; [ | exact H]; simpl; tauto].
    rewrite (@replaceFrom_absent (chr "<") _ s);
      [ | eapply Forall_impl; [ | exact H]; simpl; tauto].
    apply replaceFrom_absent.
    eapply Forall_impl; [ | exact H]; simpl; tauto. }
  rewrite HE. unfold GoString.PlainText.
  rewrite (GoString_stringToRunes_decode _ Hv).
  assert (Hp : Forall passes (Utf8.decode s)).
  { apply Forall_forall. intros c Hc. rewrite Forall_forall in H.
    unfold passes. split; intros ->;
      apply (Utf8_decode_ascii _ Hv) in Hc; try (cbn; lia);
      destruct (H _ Hc) as (N1 & N2 & N3); congruence. }
  pose proof (Split_Forall newline Hp) as Hl.
  pose proof (runesToString_stringToRunes (Utf8.decode s)) as Hj.
  unfold stringToRunes in *.
  destruct (Split_cons (Utf8.decode s) newline) as (l & ls & Hs).
  rewrite Hs in *.
  rewrite (plain_passes Hl). cbn [option_map].
  rewrite GoString_runesToString_encode, Hj. f_equal. exact (Utf8_encode_decode _ Hv).
Qed.

Lemma PlainText_Escape_roundtrip_valid_utf8_witness :
  GoString.PlainText
    (Escape (runes "tab;" ++ [195; 169; 226; 130; 172] ++ newline :: runes "x = 1"))
  = Some (runes "tab;" ++ [195; 169; 226; 130; 172] ++ newline :: runes "x = 1").
Proof.
  apply PlainText_Escape_roundtrip_valid_utf8.
  - vm_compute. reflexivity.
  - repeat constructor; vm_compute; discriminate.
Defined.

(** C4 as stated fails: the byte [0xff] alone is a string without [&], [<]
    and [>], and [PlainText(Escape(s))] returns the three bytes of U+FFFD
    for it. *)
Lemma PlainText_Escape_replaces_invalid_byte :
  Forall (fun b => b <> chr "&" /\ b <> chr "<" /\ b <> chr ">") [255]
  /\ GoString.PlainText (Escape [255]) = Some [239; 191; 189]
  /\ GoString.PlainText (Escape [255]) <> Some [255].
Proof.
  split; [repeat constructor; vm_compute; discriminate | ].
  split; [vm_compute; reflexivity | vm_compute; discriminate].
Qed.

(** ** The loop of [replace] *)

Section ReplaceLoop.

Variable Q : Type.
Variable query : Q -> list rune -> segment -> segment -> bool * Q.
Variable p : Regex.Regexp.
Variable repl : list rune.
Variable haystack : list rune.
Variable haystackIndex : list flatIndex.

(** The offset only moves by the end of the match: when the pattern matches
    the empty string right at the offset, before the last rune of the
    haystack, the next round starts from the same offset, whatever the
    callback answers, and the loop never returns. *)
Lemma replaceLoop_empty_match_stuck (offset : nat) (e : flatIndex) :
  Regex.FindStringIndex p (from offset haystack) = Some (0%nat, 0%nat) ->
  nth_error (from offset haystackIndex) 0 = Some e ->
  0 <= flatRaw e ->
  Z.of_nat offset <= len haystack - 1 ->
  forall fuel resRunes q,
    flatRaw e <= len resRunes ->
    replaceLoop query fuel p repl haystack haystackIndex resRunes offset q
    = OutOfFuel.
Proof.
  intros Hfind Hidx Hpos Hoff.
  induction fuel as [ | fuel IH]; intros resRunes q Hres; [reflexivity | ].
  cbn [replaceLoop]. rewrite Hfind, Hidx. cbn [orPanic bind].
  destruct (query q _ _ _) as [yes q'].
  replace (offset + 0)%nat with offset by lia.
  replace (Z.of_nat offset >? len haystack - 1) with false
    by (symmetry; rewrite Z.gtb_ltb; apply Z.ltb_ge; lia).
  destruct yes.
  - replace ((0 <=? flatRaw e) && (flatRaw e <=? len resRunes)) with true
      by (symmetry; apply andb_true_iff; split; apply Z.leb_le; lia).
    cbn [bind]. apply IH.
    unfold len, upto in *. rewrite length_app, firstn_length_le; lia.
  - cbn [bind]. apply IH. exact Hres.
Qed.

(** When every match ends after at least one rune, the offset grows at
    each round and one round per rune of the haystack, plus one, is
    enough. *)
Lemma replaceLoop_returns :
  (forall s a b, Regex.FindStringIndex p s = Some (a, b) -> (0 < b)%nat) ->
  forall fuel offset resRunes q,
    (offset <= length haystack)%nat ->
    (length haystack + 1 <= fuel + offset)%nat ->
    replaceLoop query fuel p repl haystack haystackIndex resRunes offset q
    <> OutOfFuel.
Proof.
  intros Hpos.
  induction fuel as [ | fuel IH]; intros offset resRunes q Hle Hfuel; [lia | ].
  cbn [replaceLoop].
  destruct (Regex.FindStringIndex p (from offset haystack))
    as [ [m0 m1] | ] eqn:Hfind; [ | discriminate].
  apply Hpos in Hfind.
  destruct (nth_error (from offset haystackIndex) m0); [ | discriminate].
  destruct (nth_error (from offset haystackIndex) m1); [ | discriminate].
  cbn [orPanic bind].
  destruct (query q _ _ _) as [yes q'].
  assert (Hnext : forall res,
             (if Z.of_nat (offset + m1) >? len haystack - 1
              then Ok (stringToRunes res, q')
              else replaceLoop query fuel p repl haystack haystackIndex res
                               (offset + m1) q') <> OutOfFuel).
  { intros res.
    destruct (Z.of_nat (offset + m1) >? len haystack - 1) eqn:E;
      [discriminate | ].
    rewrite Z.gtb_ltb in E. apply Z.ltb_ge in E. unfold len in E.
    apply IH; lia. }
  destruct yes; [ | apply Hnext].
  match goal with
  | |- context [if ?c then Ok _ else Panic _] => destruct c
  end; cbn [bind]; [apply Hnext | discriminate].
Qed.

(** With one entry more in the table than runes in the haystack, the two
    lookups of a round are in range. *)
Lemma replaceLoop_lookups_in_range :
  length haystackIndex = S (length haystack) ->
  forall fuel offset resRunes q,
    (offset <= length haystack)%nat ->
    replaceLoop query fuel p repl haystack haystackIndex resRunes offset q
    <> Panic IndexOutOfRange.
Proof.
  intros Hlen.
  induction fuel as [ | fuel IH]; intros offset resRunes q Hle; [discriminate | ].
  cbn [replaceLoop].
  destruct (Regex.FindStringIndex p (from offset haystack))
    as [ [m0 m1] | ] eqn:Hfind; [ | discriminate].
  apply Regex.FindStringIndex_range in Hfind.
  unfold from in *. rewrite length_skipn in Hfind.
  destruct (nth_error (skipn offset haystackIndex) m0) eqn:E0.
  2:{ apply nth_error_None in E0. rewrite length_skipn in E0. lia. }
  destruct (nth_error (skipn offset haystackIndex) m1) eqn:E1.
  2:{ apply nth_error_None in E1. rewrite length_skipn in E1. lia. }
  cbn [orPanic bind].
  destruct (query q _ _ _) as [yes q'].
  assert (Hnext : forall res,
             (if Z.of_nat (offset + m1) >? len haystack - 1
              then Ok (stringToRunes res, q')
              else replaceLoop query fuel p repl haystack haystackIndex res
                               (offset + m1) q') <> Panic IndexOutOfRange).
  { intros res.
    destruct (Z.of_nat (offset + m1) >? len haystack - 1) eqn:E;
      [discriminate | ].
    rewrite Z.gtb_ltb in E. apply Z.ltb_ge in E. unfold len in E.
    apply IH. lia. }
  destruct yes; [ | apply Hnext].
  match goal with
  | |- context [if ?c then Ok _ else Panic _] => destruct c
  end; cbn [bind]; [apply Hnext | discriminate].
Qed.

End ReplaceLoop.

Lemma replace_haystack_tables (rs : list (list rune)) (raw : bool) :
  let f := flattenWithIndex rs in
  length (if raw then rawIndex f else screenIndex f)
  = S (length (if raw then flatRawRunes f else flatScreen f)).
Proof.
  destruct (flattenWithIndex_tables rs) as (_ & Hraw & Hscr).
  destruct raw; assumption.
Qed.

(** C6 (the code diverges from the claim).  On the buffer [abc] the pattern
    [b*] matches the empty string at offset 0, so the offset never moves:
    whatever the replacement, the callback and its answers, in raw or in
    screen space, no number of rounds makes [replace] return. *)
Theorem replace_empty_match_never_returns :
  forall (Q : Type) (query : Q -> list rune -> segment -> segment -> bool * Q)
         (fuel : nat) (raw : bool) (repl : list rune) (q : Q),
    replace query fuel (stringToRunes (runes "abc")) raw
            (Regex.MustCompile (Regex.Star (Regex.Lit (chr "b")))) repl q
    = OutOfFuel.
Proof.
  intros Q query fuel raw repl q. unfold replace.
  destruct raw;
    apply replaceLoop_empty_match_stuck
      with (e := mkFlatIndex (mkPoint 0 0) (mkPoint 0 0) 0);
    try (vm_compute; reflexivity); vm_compute; discriminate.
Qed.

(** A literal never matches the empty string, so [replace] with it
    returns. *)
Lemma findFrom_Lit (c : rune) (s : list rune) :
  forall i a b cs,
    Regex.findFrom (Regex.Lit c) s i = Some (a, b, cs) -> (0 < b)%nat.
Proof.
  induction s as [ | d s IH]; intros i a b cs H; simpl in H; [discriminate | ].
  destruct (d =? c).
  - inversion H; subst. lia.
  - apply IH in H. exact H.
Qed.

Lemma replace_Lit_returns (Q : Type)
      (query : Q -> list rune -> segment -> segment -> bool * Q)
      (c : rune) (rs : list (list rune)) (raw : bool) (repl : list rune) (q : Q) :
  let f := flattenWithIndex rs in
  replace query (S (length (if raw then flatRawRunes f else flatScreen f)))
          rs raw (Regex.MustCompile (Regex.Lit c)) repl q
  <> OutOfFuel.
Proof.
  unfold replace. apply replaceLoop_returns; try lia.
  intros s a b H. simpl in H. unfold Regex.findIndex in H.
  destruct (Regex.findFrom (Regex.Lit c) s 0) as [ [ [a' b'] cs] | ] eqn:E;
    [ | discriminate].
  inversion H; subst. eapply findFrom_Lit. exact E.
Qed.

(** C7 (amended).  [flattenWithIndex] closes each index table with the
    entry of the eof token, so each table has exactly one entry more than
    its haystack has runes; the lookups of the start and of the end of a
    match, also of a match that spans the entire remaining haystack, are
    therefore inside the table, and [replace] never panics on them. *)
Theorem replace_lookups_stay_in_table :
  forall rs : list (list rune),
    let f := flattenWithIndex rs in
    length (rawIndex f) = S (length (flatRawRunes f))
    /\ length (screenIndex f) = S (length (flatScreen f))
    /\ forall (Q : Type)
              (query : Q -> list rune -> segment -> segment -> bool * Q)
              (fuel : nat) (raw : bool) (p : Regex.Regexp)
              (repl : list rune) (q : Q),
        replace query fuel rs raw p repl q <> Panic IndexOutOfRange.
Proof.
  intros rs f.
  destruct (flattenWithIndex_tables rs) as (_ & Hraw & Hscr).
  split; [exact Hraw | ]. split; [exact Hscr | ].
  intros Q query fuel raw p repl q. unfold replace.
  apply replaceLoop_lookups_in_range; [ | lia].
  apply replace_haystack_tables.
Qed.

(** C7 as stated fails: no buffer, search space, pattern and scan offset
    give a match that ends with the remaining haystack and whose end offset
    is past the end of the remaining index table. *)
Lemma no_match_end_past_the_index_table :
  ~ (exists (rs : list (list rune)) (raw : bool) (p : Regex.Regexp)
            (offset m0 : nat),
        let f := flattenWithIndex rs in
        let haystack := if raw then flatRawRunes f else flatScreen f in
        let haystackIndex := if raw then rawIndex f else screenIndex f in
        (offset <= length haystack)%nat
        /\ Regex.FindStringIndex p (from offset haystack)
           = Some (m0, length (from offset haystack))
        /\ nth_error (from offset haystackIndex)
                     (length (from offset haystack)) = None).
Proof.
  intros (rs & raw & p & offset & m0 & Hle & _ & Hnone).
  apply nth_error_None in Hnone.
  pose proof (replace_haystack_tables rs raw) as Hlen. cbv zeta in Hlen.
  unfold from in *. rewrite !length_skipn in Hnone. lia.
Qed.

(** ** Tag and escape spans *)

Lemma eqb_runes_eq (a b : list rune) : eqb_runes a b = true <-> a = b.
Proof.
  revert b. induction a as [ | c a IH]; intros [ | d b]; simpl;
    try (split; [discriminate | discriminate]); [tauto | ].
  rewrite andb_true_iff, Z.eqb_eq, IH. split.
  - intros [-> ->]. reflexivity.
  - intros E. inversion E. auto.
Qed.

Lemma eqb_runes_neq (a b : list rune) : a <> b -> eqb_runes a b = false.
Proof.
  intros H. destruct (eqb_runes a b) eqn:E; [ | reflexivity].
  apply eqb_runes_eq in E. contradiction.
Qed.

Lemma passesTests_cons (f : rune -> bool) (ts : list (rune -> bool))
      (s : list rune) :
  passesTests (f :: ts) s = true ->
  exists c s', s = c :: s' /\ f c = true /\ passesTests ts s' = true.
Proof.
  destruct s as [ | c s']; simpl; [discriminate | ].
  intros H. apply andb_true_iff in H. destruct H. eauto.
Qed.

Lemma passesTests_app (ta tb : list (rune -> bool)) :
  forall s, passesTests (ta ++ tb) s
            = passesTests ta s && passesTests tb (skipn (length ta) s).
Proof.
  induction ta as [ | f ta IH]; intros s; simpl; [reflexivity | ].
  destruct s as [ | c s]; [reflexivity | ].
  rewrite IH, andb_assoc. reflexivity.
Qed.

Lemma run_tests (A : Type) (r : Regex.re) :
  forall ts, tests r = Some ts ->
  forall s i c (k : list rune -> nat -> Regex.caps -> option A),
    (passesTests ts s = false -> Regex.run r s i c k = None)
    /\ (passesTests ts s = true ->
        exists c', Regex.run r s i c k
                   = k (skipn (length ts) s) (i + length ts)%nat c').
Proof.
  induction r as [ | d | f | a IHa b IHb | a IHa b IHb | a IHa | g a IHa ];
    intros ts Hts s i c k; simpl in Hts; try discriminate.
  - inversion Hts; subst. simpl. split; [discriminate | ].
    intros _. exists c. rewrite Nat.add_0_r. reflexivity.
  - inversion Hts; subst. destruct s as [ | e s]; simpl.
    + split; [reflexivity | discriminate].
    + rewrite andb_true_r, Nat.add_1_r.
      destruct (e =? d); split; try discriminate; eauto.
  - inversion Hts; subst. destruct s as [ | e s]; simpl.
    + split; [reflexivity | discriminate].
    + rewrite andb_true_r, Nat.add_1_r.
      destruct (f e); split; try discriminate; eauto.
  - destruct (tests a) as [ta | ]; [ | discriminate].
    destruct (tests b) as [tb | ]; [ | discriminate].
    inversion Hts; subst. rewrite passesTests_app. simpl.
    destruct (IHa ta eq_refl s i c
                  (fun s' i' c' => Regex.run b s' i' c' k)) as [Hno Hyes].
    destruct (passesTests ta s).
    + destruct (Hyes eq_refl) as [c1 ->].
      destruct (IHb tb eq_refl (skipn (length ta) s) (i + length ta)%nat c1 k)
        as [Hno' Hyes'].
      simpl. split; [exact Hno' | ].
      intros H. destruct (Hyes' H) as [c2 ->]. exists c2.
      rewrite length_app, skipn_skipn, Nat.add_assoc.
      rewrite (Nat.add_comm (length tb)). reflexivity.
    + split; [intros _; apply Hno; reflexivity | discriminate].
  - destruct (IHa ts Hts s i c
                  (fun s' i' c' => k s' i' ((g, (i, i')) :: c')))
      as [Hno Hyes].
    cbn [Regex.run]. split; [exact Hno | ].
    intros H. destruct (Hyes H) as [c1 ->]. eauto.
Qed.

Lemma findFrom_None (r : Regex.re) (ts : list (rune -> bool)) :
  tests r = Some ts ->
  forall s i,
    (forall n, passesTests ts (skipn n s) = false) ->
    Regex.findFrom r s i = None.
Proof.
  intros Hts. induction s as [ | c s IH]; intros i Hall.
  - simpl. destruct (run_tests r Hts [] i []
                       (fun _ j cs => Some (j, cs))) as [Hno _].
    rewrite Hno; [reflexivity | exact (Hall 0%nat)].
  - cbn [Regex.findFrom].
    destruct (run_tests r Hts (c :: s) i []
                (fun _ j cs => Some (j, cs))) as [Hno _].
    rewrite Hno; [ | exact (Hall 0%nat)].
    apply IH. intros n. exact (Hall (S n)).
Qed.

Lemma findFrom_Some (r : Regex.re) (ts : list (rune -> bool)) :
  tests r = Some ts ->
  forall s i v,
    Regex.findFrom r s i = Some v ->
    exists n, passesTests ts (skipn n s) = true.
Proof.
  intros Hts. induction s as [ | c s IH]; intros i v H.
  - exists 0%nat. simpl. destruct (passesTests ts []) eqn:E; [reflexivity | ].
    simpl in H.
    destruct (run_tests r Hts [] i [] (fun _ j cs => Some (j, cs))) as [Hno _].
    rewrite (Hno E) in H. discriminate.
  - destruct (passesTests ts (c :: s)) eqn:E; [exists 0%nat; exact E | ].
    cbn [Regex.findFrom] in H.
    destruct (run_tests r Hts (c :: s) i []
                (fun _ j cs => Some (j, cs))) as [Hno _].
    rewrite (Hno E) in H. apply IH in H. destruct H as [n H].
    exists (S n). exact H.
Qed.

Lemma tests_colorTagPattern : tests colorTagPattern = Some colorTests.
Proof. reflexivity. Qed.

Ltac split_andb H :=
  repeat (let H1 := fresh "Hc" in
          apply andb_true_iff in H; destruct H as [H1 H]).

Lemma colorTests_colorTag (s : list rune) :
  passesTests colorTests s = true <->
  exists t post, s = t ++ post /\ colorTag t.
Proof.
  split.
  - intros H.
    do 21 (apply passesTests_cons in H; destruct H as (? & ? & -> & ? & H)).
    cbv beta in *.
    repeat match goal with
           | E : (_ =? _) = true |- _ => apply Z.eqb_eq in E; subst
           end.
    match goal with
    | |- exists t post, (_ :: _ :: _ :: _ :: _ :: _ :: _ ::
                         ?f1 :: ?f2 :: ?f3 :: ?f4 :: ?f5 :: ?f6 :: _ ::
                         ?b1 :: ?b2 :: ?b3 :: ?b4 :: ?b5 :: ?b6 :: _ :: ?rest)
                        = _ /\ _ =>
        exists (runes "<color:" ++ [f1; f2; f3; f4; f5; f6]
                  ++ chr ":" :: [b1; b2; b3; b4; b5; b6] ++ [chr ">"]), rest;
        split; [reflexivity | ];
        exists [f1; f2; f3; f4; f5; f6], [b1; b2; b3; b4; b5; b6]
    end.
    repeat split; simpl;
      repeat match goal with
             | E : isHex _ = true |- _ => rewrite E; clear E
             end; reflexivity.
  - intros (t & post & -> & fgHex & bgHex & -> & Hlf & Hlb & Hf & Hb).
    do 6 (destruct fgHex as [ | ? fgHex]; [discriminate | ]).
    destruct fgHex; [ | discriminate].
    do 6 (destruct bgHex as [ | ? bgHex]; [discriminate | ]).
    destruct bgHex; [ | discriminate].
    simpl in Hf, Hb. split_andb Hf. split_andb Hb.
    unfold colorTests. simpl.
    repeat match goal with
           | E : isHex _ = true |- _ => rewrite E; clear E
           end.
    reflexivity.
Qed.

Lemma containsColorTag_tests (b : list rune) :
  containsColorTag b <-> exists n, passesTests colorTests (skipn n b) = true.
Proof.
  split.
  - intros (pre & t & post & -> & Ht). exists (length pre).
    rewrite skipn_app, skipn_all, Nat.sub_diag. simpl.
    apply colorTests_colorTag. eauto.
  - intros (n & H). apply colorTests_colorTag in H.
    destruct H as (t & post & E & Ht).
    exists (firstn n b), t, post. split; [ | exact Ht].
    rewrite <- E. symmetry. apply firstn_skipn.
Qed.

(** The tokenizer searches the span for the colour pattern: the search
    fails exactly on the spans that hold no colour tag. *)
Lemma colorTagPattern_search (b : list rune) :
  (~ containsColorTag b ->
   Regex.FindStringSubmatch colorTagPattern 2 b = None)
  /\ (forall l, Regex.FindStringSubmatch colorTagPattern 2 b = Some l ->
                containsColorTag b).
Proof.
  unfold Regex.FindStringSubmatch. split.
  - intros H. rewrite (findFrom_None colorTagPattern tests_colorTagPattern); [reflexivity | ].
    intros n. destruct (passesTests colorTests (skipn n b)) eqn:E;
      [ | reflexivity].
    exfalso. apply H. apply containsColorTag_tests. eauto.
  - intros l H.
    destruct (Regex.findFrom colorTagPattern b 0) as [v | ] eqn:E;
      [ | discriminate].
    apply containsColorTag_tests.
    exact (findFrom_Some colorTagPattern tests_colorTagPattern _ _ E).
Qed.

Lemma parseRune_styleFromColorTag (p : parser) (ix : Z) (r : rune) :
  Forall styleFromColorTag (snd (parseRune p ix r)).
Proof.
  unfold parseRune, cb.
  repeat (break_match; simpl); repeat constructor;
    unfold styleFromColorTag; simpl; try congruence.
  intros _. eapply colorTagPattern_search. eassumption.
Qed.

Lemma parseTokens_styleFromColorTag (buf : list (list rune)) :
  Forall styleFromColorTag (parseTokens buf).
Proof.
  unfold parseTokens, cb. simpl.
  match goal with
  | |- context [parseLines ?P0 0 (len buf) buf] =>
      pose proof (@parseLines_all styleFromColorTag
                    parseRune_styleFromColorTag
                    (fun t (H : style (setNewLine t) <> None) =>
                       False_ind _ (H eq_refl))
                    buf P0 0 (len buf)) as H;
      destruct (parseLines P0 0 (len buf) buf) as [p2 out2]
  end.
  simpl in *. constructor; [intros E; simpl in E; congruence | ].
  apply Forall_app. split; [exact H | ].
  constructor; [intros E; simpl in E; congruence | constructor].
Qed.

(** C8 (amended).  Inside a tag or escape span the tokenizer emits
    nothing.  At the [>] that closes a tag span whose buffered content is
    neither [<select-from>] nor [<select-to>] and holds no well-formed
    colour tag, and at the [;] that closes an escape span whose buffered
    content is none of [&amp;], [&lt;], [&gt;], it emits no token and goes
    back to state [visible]; there is no error result.  In every token
    stream a style token carries a span that holds a well-formed colour
    tag. *)
Theorem spans_without_color_tag_are_absorbed :
  (forall p ix r,
      (state p = tag /\ r <> chr ">") \/ (state p = escape /\ r <> chr ";") ->
      snd (parseRune p ix r) = []
      /\ state (fst (parseRune p ix r)) = state p)
  /\
  (forall p ix,
      state p = tag ->
      buffer (tok p) ++ [chr ">"] <> selectFromToken ->
      buffer (tok p) ++ [chr ">"] <> selectToToken ->
      ~ containsColorTag (buffer (tok p) ++ [chr ">"]) ->
      snd (parseRune p ix (chr ">")) = []
      /\ state (fst (parseRune p ix (chr ">"))) = visible)
  /\
  (forall p ix,
      state p = escape ->
      buffer (tok p) ++ [chr ";"] <> runes "&amp;" ->
      buffer (tok p) ++ [chr ";"] <> runes "&lt;" ->
      buffer (tok p) ++ [chr ";"] <> runes "&gt;" ->
      snd (parseRune p ix (chr ";")) = []
      /\ state (fst (parseRune p ix (chr ";"))) = visible)
  /\
  (forall buf t,
      In t (parseTokens buf) -> style t <> None ->
      containsColorTag (buffer t)).
Proof.
  repeat split.
  - destruct H as [ [Hs Hr] | [Hs Hr] ]; unfold parseRune; rewrite Hs;
      apply Z.eqb_neq in Hr; rewrite Hr; reflexivity.
  - destruct H as [ [Hs Hr] | [Hs Hr] ]; unfold parseRune; rewrite Hs;
      apply Z.eqb_neq in Hr; rewrite Hr; simpl; congruence.
  - unfold parseRune. rewrite H. simpl.
    rewrite (eqb_runes_neq H0), (eqb_runes_neq H1). simpl.
    rewrite (proj1 (colorTagPattern_search _) H2). reflexivity.
  - unfold parseRune. rewrite H. simpl.
    rewrite (eqb_runes_neq H0), (eqb_runes_neq H1). simpl.
    rewrite (proj1 (colorTagPattern_search _) H2). reflexivity.
  - apply eqb_runes_neq in H0, H1, H2.
    unfold parseRune. rewrite H. simpl in *. rewrite H0, H1, H2.
    reflexivity.
  - apply eqb_runes_neq in H0, H1, H2.
    unfold parseRune. rewrite H. simpl in *. rewrite H0, H1, H2.
    reflexivity.
  - intros buf t Hin.
    exact (proj1 (Forall_forall _ _) (parseTokens_styleFromColorTag buf) t Hin).
Qed.

Lemma no_color_tag_in_bold_tag : ~ containsColorTag (runes "<b>").
Proof.
  intros H. apply containsColorTag_tests in H. destruct H as [n H].
  destruct n as [ | [ | [ | n] ] ]; try (vm_compute in H; discriminate).
  rewrite skipn_all2 in H by (simpl; lia). vm_compute in H. discriminate.
Qed.

Lemma spans_without_color_tag_are_absorbed_witness :
  (snd (parseRune (mkParser tag false (makeToken (mkPoint 0 0) (runes "<b")) 1)
                  2 (chr ">")) = []
   /\ state (fst (parseRune
                    (mkParser tag false (makeToken (mkPoint 0 0) (runes "<b")) 1)
                    2 (chr ">"))) = visible)
  /\
  (snd (parseRune
          (mkParser escape false (makeToken (mkPoint 0 0) (runes "&nbsp")) 4)
          5 (chr ";")) = []
   /\ state (fst (parseRune
                    (mkParser escape false
                              (makeToken (mkPoint 0 0) (runes "&nbsp")) 4)
                    5 (chr ";"))) = visible)
  /\
  containsColorTag (runes "<color:ff0000:0000FF>").
Proof.
  destruct spans_without_color_tag_are_absorbed as (_ & Htag & Hesc & Hstyle).
  split; [ | split].
  - apply Htag.
    + reflexivity.
    + vm_compute. discriminate.
    + vm_compute. discriminate.
    + exact no_color_tag_in_bold_tag.
  - apply Hesc; [reflexivity | | | ]; vm_compute; discriminate.
  - apply (Hstyle [runes "a<color:ff0000:0000FF>b"]
                  (setStyle (mkStyle (HexColor 16711680) (HexColor 255))
                            (makeToken (mkPoint 1 0)
                                       (runes "<color:ff0000:0000FF>")))).
    + vm_compute. right. right. left. reflexivity.
    + discriminate.
Defined.

(** C8 as stated fails on a tag span that holds a colour tag after other
    runes: the span [<<color:000000:ffffff>] is not a selection marker and
    is not a well-formed colour tag, and the tokenizer emits a style token
    for it. *)
Lemma nested_tag_span_emits_style :
  runes "<<color:000000:ffffff>" <> selectFromToken
  /\ runes "<<color:000000:ffffff>" <> selectToToken
  /\ ~ colorTag (runes "<<color:000000:ffffff>")
  /\ parseTokens [runes "<<color:000000:ffffff>"]
     = [ setStart (makeToken (mkPoint 0 0) []);
         setStyle (mkStyle (HexColor 0) (HexColor 16777215))
                  (makeToken (mkPoint 0 0) (runes "<<color:000000:ffffff>"));
         setEof (makeToken (mkPoint 22 0) []) ].
Proof.
  split; [vm_compute; discriminate | ].
  split; [vm_compute; discriminate | ].
  split; [ | vm_compute; reflexivity].
  intros (fgHex & bgHex & E & _). simpl in E. inversion E.
Qed.

(** ** The editor: sessions *)

Lemma bind_assoc {A B C} (m : result A) (f : A -> result B) (g : B -> result C) :
  bind (bind m f) g = bind m (fun a => bind (f a) g).
Proof. destruct m; reflexivity. Qed.

Section Sessions.

Variable differ : Differ.

Lemma pollKeys_app (fuel : nat) (evs1 evs2 : list Event) :
  forall e : Editor differ,
    pollKeys fuel (evs1 ++ evs2) e
    = (do r <- pollKeys fuel evs1 e;
       match r with
       | Some e' => pollKeys fuel evs2 e'
       | None => Ok None
       end).
Proof.
  induction evs1 as [ | ev evs1 IH]; intros e; [reflexivity | ].
  cbn [pollKeys app]. rewrite bind_assoc.
  destruct (pollKey fuel ev e) as [ [e' | ] | | ]; cbn [bind];
    [apply IH | reflexivity | reflexivity | reflexivity].
Qed.

Lemma Edit_app (fuel : nat) (size : Z * Z) (evs1 evs2 : list Event)
      (s : list rune) :
  Edit differ fuel size (evs1 ++ evs2) s
  = (do r <- Edit differ fuel size evs1 s;
     match r with
     | Some e' => pollKeys fuel evs2 e'
     | None => Ok None
     end).
Proof.
  unfold Edit. rewrite !bind_assoc.
  match goal with |- bind ?m _ = bind ?m _ => destruct m end;
    cbn [bind]; try reflexivity.
  rewrite !bind_assoc.
  match goal with |- bind ?m _ = bind ?m _ => destruct m end;
    cbn [bind]; try reflexivity.
  apply pollKeys_app.
Qed.

Lemma popLast_snoc {A} (l : list A) (a : A) : popLast (l ++ [a]) = Some (l, a).
Proof.
  induction l as [ | b l IH]; [reflexivity | ].
  cbn [app popLast]. rewrite IH.
  destruct (l ++ [a]) eqn:E; [destruct l; discriminate | reflexivity].
Qed.

(** Ctrl-Z when the top of the undo stack leads from the present content to
    [prev]: the entry is popped, its inverse is pushed on the redo stack,
    the buffer and the cursor are restored and the screen is redrawn. *)
Lemma pollKey_CtrlZ (fuel : nat) (shift ctrl : bool) (e : Editor differ)
      (rest : list (patch differ)) (c : point) (prev : list rune) :
  differ_contract differ ->
  undoPatches e = rest ++ [mkPatch differ c (PatchMake differ (Content e) prev)] ->
  Content e <> prev ->
  pollKey fuel (EventKey KeyCtrlZ shift ctrl) e
  = (do e' <- redraw
                (setCursorPoint c
                   (setRawBuffer (stringToRunes prev)
                      (setRedoPatches
                         (redoPatches e
                            ++ [mkPatch differ c
                                        (PatchMake differ prev (Content e))])
                         (setUndoPatches rest e))));
     Ok (Some (if selecting e' then setSelecting false e' else e'))).
Proof.
  intros Hc Hundo Hneq.
  unfold pollKey, handleKey. rewrite Hundo, popLast_snoc.
  cbn [patches patchCursor]. fold (Content e).
  destruct (Hc (Content e) prev Hneq) as [more ->].
  cbn [at' index orPanic bind Z.ltb Z.compare Z.to_nat nth_error].
  cbn [undoPatches redoPatches setUndoPatches].
  rewrite bind_assoc.
  match goal with |- bind ?m _ = bind ?m _ => destruct m end;
    cbn [bind]; try reflexivity.
  cbn [quit selectFrom]. unfold updateSelection.
  destruct (selecting a); reflexivity.
Qed.

End Sessions.

Lemma wholeText_contract : differ_contract wholeText.
Proof.
  intros a b H. exists []. simpl. rewrite (eqb_runes_neq H).
  unfold applyWhole. simpl.
  rewrite (proj2 (eqb_runes_eq a a) eq_refl). reflexivity.
Qed.

(** Evaluate the next Ctrl-Z of a session whose editor is known. *)
Ltac undo_once Hc :=
  cbn [pollKeys];
  match goal with
  | |- context [@pollKey ?d ?fuel (EventKey KeyCtrlZ ?s ?c) ?e] =>
      let ru := eval vm_compute in (rev (undoPatches e)) in
      match ru with
      | mkPatch _ ?cur (?f ?now ?prev) :: ?init =>
          let rest := eval vm_compute in (rev init) in
          rewrite (@pollKey_CtrlZ d fuel s c e rest cur prev Hc eq_refl
                     ltac:(vm_compute; discriminate))
      end
  end;
  match goal with
  | |- context [redraw ?X] =>
      let v := eval vm_compute in (redraw X) in
      change (redraw X) with v
  end;
  cbn [bind selecting].

(** C5 (the code diverges from the claim).  On a display of 80 by 2 cells,
    starting from the empty text, three Enter keys are three edits; they
    scroll the view down to line offset 2.  Two Ctrl-Z then restore the
    content after the first Enter and leave the line offset at 2.  The third
    Ctrl-Z restores the buffer to one line and redraws: the slice
    [e.screenBuffer[e.lineOffset:]] is out of range and the session ends in
    this panic, so the three undos are never completed.  This holds with
    every differ that meets the contract. *)
Theorem undo_after_scrolling_panics :
  forall (differ : Differ) (fuel : nat),
    differ_contract differ ->
    (exists e,
        Edit differ fuel (80, 2)
             [key KeyEnter; key KeyEnter; key KeyEnter;
              key KeyCtrlZ; key KeyCtrlZ] []
        = Ok (Some e)
        /\ Content e = [newline]
        /\ lineOffset e = 2
        /\ len (screenBuffer e) = 2)
    /\ Edit differ fuel (80, 2)
            [key KeyEnter; key KeyEnter; key KeyEnter;
             key KeyCtrlZ; key KeyCtrlZ; key KeyCtrlZ] []
       = Panic SliceBoundsOutOfRange.
Proof.
  intros differ fuel Hc.
  assert (E3 : Edit differ fuel (80, 2)
                    [key KeyEnter; key KeyEnter; key KeyEnter] []
                = ltac:(let v := eval vm_compute in
                          (Edit differ fuel (80, 2)
                                [key KeyEnter; key KeyEnter; key KeyEnter] [])
                        in exact v))
    by (vm_compute; reflexivity).
  split.
  - change [key KeyEnter; key KeyEnter; key KeyEnter; key KeyCtrlZ; key KeyCtrlZ]
      with ([key KeyEnter; key KeyEnter; key KeyEnter]
              ++ [key KeyCtrlZ; key KeyCtrlZ]).
    rewrite Edit_app, E3. cbn [bind]. unfold key.
    undo_once Hc. undo_once Hc.
    eexists. split; [reflexivity | ].
    repeat split; vm_compute; reflexivity.
  - change [key KeyEnter; key KeyEnter; key KeyEnter;
            key KeyCtrlZ; key KeyCtrlZ; key KeyCtrlZ]
      with ([key KeyEnter; key KeyEnter; key KeyEnter]
              ++ [key KeyCtrlZ; key KeyCtrlZ; key KeyCtrlZ]).
    rewrite Edit_app, E3. cbn [bind]. unfold key.
    undo_once Hc. undo_once Hc. undo_once Hc.
    reflexivity.
Qed.

Lemma undo_after_scrolling_panics_witness :
  differ_contract wholeText
  /\ Edit wholeText 0 (80, 2)
          [key KeyEnter; key KeyEnter; key KeyEnter;
           key KeyCtrlZ; key KeyCtrlZ; key KeyCtrlZ] []
     = Panic SliceBoundsOutOfRange.
Proof.
  split; [exact wholeText_contract | ].
  exact (proj2 (undo_after_scrolling_panics 0 wholeText_contract)).
Defined.

(** The same on a display of 80 by 24 cells: after thirty Enter keys the
    line offset is 7, twenty-four Ctrl-Z leave seven lines, and the
    twenty-fifth panics in [redraw]. *)
Lemma undo_after_scrolling_panics_80x24 :
  (exists e,
      Edit wholeText 0 (80, 24)
           (repeat (key KeyEnter) 30 ++ repeat (key KeyCtrlZ) 24) []
      = Ok (Some e)
      /\ lineOffset e = 7 /\ len (screenBuffer e) = 7)
  /\ Edit wholeText 0 (80, 24)
          (repeat (key KeyEnter) 30 ++ repeat (key KeyCtrlZ) 25) []
     = Panic SliceBoundsOutOfRange.
Proof.
  split; [ | vm_compute; reflexivity].
  eexists. split; [vm_compute; reflexivity | ].
  split; vm_compute; reflexivity.
Qed.

(** ** The line offset *)

(** C9 (the code diverges from the claim).  On a display of 80 by 4 cells
    with the four lines a, b, c, d, the keys End and Up leave the editor
    with line offset 2 on four screen lines, within the invariant, and the
    cursor at the end of line c.  The Delete key then joins the lines c and
    d and redraws: three screen lines are left, the bound is
    [max(0, 3 - 4/2) = 1], and the line offset is still 2. *)
Theorem delete_breaks_lineOffset_invariant :
  forall (differ : Differ) (n : nat),
    (exists e,
        Edit differ (S n) (80, 4) [key KeyEnd; key KeyUp] fourLines
        = Ok (Some e)
        /\ lineOffset e = 2 /\ len (screenBuffer e) = 4
        /\ lineOffsetInvariant e)
    /\
    (exists e,
        Edit differ (S n) (80, 4) [key KeyEnd; key KeyUp; key KeyDelete]
             fourLines
        = Ok (Some e)
        /\ rawBuffer e = [runes "a"; runes "b"; runes "cd"]
        /\ lineOffset e = 2 /\ len (screenBuffer e) = 3
        /\ ~ lineOffsetInvariant e).
Proof.
  intros differ n. split.
  - eexists. split; [vm_compute; reflexivity | ].
    repeat split; vm_compute; congruence.
  - eexists. split; [vm_compute; reflexivity | ].
    repeat split; try (vm_compute; reflexivity).
    unfold lineOffsetInvariant. vm_compute. intros [_ H]. apply H. reflexivity.
Qed.

(** ** Deleting an escape sequence *)

(** C10 (the code diverges from the claim).  In the line [a&amp;] the
    screen position 1 is the raw position 1, the start of the escape
    sequence, which is complete on the line and is rendered as one
    character.  [deleteAt] there removes the [&] only: the raw line becomes
    [aamp;], and the rendered text grows from [a&] to [aamp;].  The same
    happens with [&gt;] and [&lt;] at the end of a line; the sequence is
    removed as a whole only when a further rune follows it. *)
Theorem deleteAt_escape_at_end_of_line :
  forall differ : Differ,
    (exists e e',
        Edit differ 0 (80, 24) [] (runes "a&amp;") = Ok (Some e)
        /\ rawPointAt e (mkPoint 1 0) = Ok (mkPoint 1 0)
        /\ PlainText (Content e) = Some (runes "a&")
        /\ deleteAt (mkPoint 1 0) e = Ok e'
        /\ rawBuffer e' = [runes "aamp;"]
        /\ PlainText (Content e') = Some (runes "aamp;"))
    /\
    (exists e e',
        Edit differ 0 (80, 24) [] (runes "a&gt;") = Ok (Some e)
        /\ deleteAt (mkPoint 1 0) e = Ok e'
        /\ rawBuffer e' = [runes "agt;"])
    /\
    (exists e e',
        Edit differ 0 (80, 24) [] (runes "a&lt;") = Ok (Some e)
        /\ deleteAt (mkPoint 1 0) e = Ok e'
        /\ rawBuffer e' = [runes "alt;"])
    /\
    (exists e e',
        Edit differ 0 (80, 24) [] (runes "a&amp;b") = Ok (Some e)
        /\ deleteAt (mkPoint 1 0) e = Ok e'
        /\ rawBuffer e' = [runes "ab"]).
Proof.
  intros differ.
  repeat split; eexists; eexists;
    repeat (split; [vm_compute; reflexivity | ]); vm_compute; reflexivity.
Qed.

(** *** Where the invariant of the line offset is kept

    Scrolling, as [moveCursor] calls it after [canScroll], and the Home and
    End keys keep the line offset within its bounds, when the screen buffer
    is the rendering of the raw buffer. *)

Section LineOffset.

Variable differ : Differ.

Lemma redraw_synced (e : Editor differ) (lo : Z) :
  synced e ->
  redraw (setLineOffset lo e)
  = if (0 <=? lo) && (lo <=? len (screenBuffer e))
    then Ok (setLineOffset lo e)
    else Panic SliceBoundsOutOfRange.
Proof.
  intros [Hs Hw]. destruct e as [scr rb sb sbi lo0 sel pb un re cur].
  unfold redraw, noScreen in *. simpl in *. rewrite Hs, Hw. reflexivity.
Qed.

Lemma halfHeight_nonneg (e : Editor differ) :
  0 <= snd (Screen e) -> 0 <= halfHeight e.
Proof. intros H. unfold halfHeight. apply Z.quot_pos; lia. Qed.

Lemma scroll_keeps_lineOffset_invariant (e : Editor differ) (d : direction) :
  synced e -> 0 <= snd (Screen e) ->
  lineOffsetInvariant e -> canScroll e d = true ->
  exists e',
    scroll d e = Ok e'
    /\ lineOffsetInvariant e' /\ synced e' /\ rawBuffer e' = rawBuffer e.
Proof.
  intros Hsync Hh [Hlo Hhi] Hcan.
  pose proof (halfHeight_nonneg e Hh) as Hhh.
  unfold scroll. destruct Hsync as [Hs Hw]. rewrite Hs.
  assert (Hgoal : forall lo,
             0 <= lo <= Z.max 0 (len (screenBuffer e) - halfHeight e) ->
             limitInt lo 0 (len (screenBuffer e) - halfHeight e) = lo ->
             exists e',
               redraw (setLineOffset
                         (limitInt lo 0 (len (screenBuffer e) - halfHeight e)) e)
               = Ok e'
               /\ lineOffsetInvariant e' /\ synced e'
               /\ rawBuffer e' = rawBuffer e).
  { intros lo Hb ->. rewrite redraw_synced by (split; assumption).
    assert (0 <= len (screenBuffer e)) by (unfold len; lia).
    replace ((0 <=? lo) && (lo <=? len (screenBuffer e))) with true
      by (symmetry; apply andb_true_iff; split; apply Z.leb_le; lia).
    exists (setLineOffset lo e). split; [reflexivity | ].
    split; [ | split; [split; assumption | reflexivity] ].
    unfold lineOffsetInvariant. simpl. fold (halfHeight e). exact Hb. }
  unfold canScroll in Hcan. unfold limitInt in *.
  destruct d; try discriminate.
  - apply Z.gtb_lt in Hcan. apply Hgoal; [lia | ].
    destruct (lineOffset e - 1 <? 0) eqn:E1;
      [apply Z.ltb_lt in E1; lia | ].
    destruct (lineOffset e - 1 >=? len (screenBuffer e) - halfHeight e) eqn:E2;
      [apply Z.geb_le in E2; lia | reflexivity].
  - apply Z.ltb_lt in Hcan. apply Hgoal; [lia | ].
    destruct (lineOffset e + 1 <? 0) eqn:E1;
      [apply Z.ltb_lt in E1; lia | ].
    destruct (lineOffset e + 1 >=? len (screenBuffer e) - halfHeight e) eqn:E2;
      [apply Z.geb_le in E2; lia | reflexivity].
Qed.

Lemma redraw_frame (e e' : Editor differ) :
  redraw e = Ok e' ->
  lineOffset e' = lineOffset e /\ rawBuffer e' = rawBuffer e
  /\ Screen e' = Screen e
  /\ (synced e -> screenBuffer e' = screenBuffer e).
Proof.
  unfold redraw. intros H.
  destruct (noScreen (setScreenBuffers [] [] e)) eqn:Hn.
  - inversion H; subst. simpl. repeat split.
    intros [Hs _]. unfold noScreen in *. simpl in Hn. congruence.
  - destruct (wrap (fst (Screen (setScreenBuffers [] [] e)))
                   (rawBuffer (setScreenBuffers [] [] e))) as [w | ] eqn:Hw;
      [ | discriminate].
    cbn [orPanic bind] in H.
    match type of H with (if ?c then _ else _) = _ => destruct c end;
      [ | discriminate].
    inversion H; subst. simpl. repeat split.
    intros [_ Hw']. simpl in Hw. rewrite Hw' in Hw. inversion Hw. reflexivity.
Qed.

Lemma setCursor_frame (e e' : Editor differ) :
  setCursor e = Ok e' ->
  lineOffset e' = lineOffset e /\ screenBuffer e' = screenBuffer e
  /\ Screen e' = Screen e.
Proof.
  unfold setCursor. intros H. destruct (noScreen e).
  - inversion H; subst. repeat split.
  - match type of H with bind ?m _ = _ => destruct m end;
      [ | discriminate | discriminate].
    cbn [bind] in H. inversion H; subst. repeat split.
Qed.

Lemma Home_sets_lineOffset_invariant (fuel : nat) (prev : list rune)
      (shift ctrl : bool) (e e' : Editor differ) (fl : flags) :
  handleKey fuel prev KeyHome shift ctrl e = Ok (fl, e') ->
  lineOffset e' = 0 /\ lineOffsetInvariant e'.
Proof.
  unfold handleKey. intros H.
  destruct (redraw (setLineOffset 0 (setCursorPoint (mkPoint 0 0) e)))
    as [e1 | | ] eqn:E1; [ | discriminate | discriminate].
  cbn [bind] in H.
  destruct (setCursor e1) as [e2 | | ] eqn:E2; [ | discriminate | discriminate].
  cbn [bind] in H. inversion H; subst.
  apply redraw_frame in E1. apply setCursor_frame in E2.
  destruct E1 as (L1 & _). destruct E2 as (L2 & _).
  assert (L : lineOffset e' = 0) by (rewrite L2, L1; reflexivity).
  split; [exact L | ]. unfold lineOffsetInvariant. rewrite L. lia.
Qed.

Lemma End_sets_lineOffset_invariant (fuel : nat) (prev : list rune)
      (shift ctrl : bool) (e e' : Editor differ) (fl : flags) :
  synced e ->
  handleKey fuel prev KeyEnd shift ctrl e = Ok (fl, e') ->
  lineOffset e' = Z.max 0 (len (screenBuffer e') - halfHeight e')
  /\ lineOffsetInvariant e'.
Proof.
  unfold handleKey. intros Hsync H.
  match type of H with bind ?m _ = _ => destruct m as [row | | ] end;
    [ | discriminate | discriminate].
  cbn [bind] in H.
  match type of H with
  | bind (redraw ?X) _ = _ =>
      destruct (redraw X) as [e1 | | ] eqn:E1; [ | discriminate | discriminate];
      assert (Hsx : synced X) by (destruct Hsync; split; assumption)
  end.
  cbn [bind] in H.
  destruct (setCursor e1) as [e2 | | ] eqn:E2; [ | discriminate | discriminate].
  cbn [bind] in H. inversion H; subst.
  apply redraw_frame in E1. apply setCursor_frame in E2.
  destruct E1 as (L1 & _ & S1 & B1). destruct E2 as (L2 & B2 & S2).
  specialize (B1 Hsx). simpl in L1, B1, S1.
  assert (L : lineOffset e'
              = Z.max 0 (len (screenBuffer e') - halfHeight e')).
  { rewrite L2, L1, B2, B1. unfold halfHeight. rewrite S2, S1.
    unfold maxInt. simpl fold_left. unfold halfHeight. simpl. lia. }
  split; [exact L | ]. unfold lineOffsetInvariant. rewrite <- L. lia.
Qed.

End LineOffset.

(** *** [deleteAt] on an escape sequence, in general *)

Section DeleteEscape.

Variable differ : Differ.

Lemma len_app {A} (a b : list A) : len (a ++ b) = len a + len b.
Proof. unfold len. rewrite length_app. lia. Qed.

Lemma to_nat_len {A} (l : list A) : Z.to_nat (len l) = length l.
Proof. unfold len. lia. Qed.

Lemma at_app {A} (pre rest : list A) (c : A) :
  at' (pre ++ c :: rest) (len pre) = Ok c.
Proof.
  unfold at', index.
  replace (len pre <? 0) with false
    by (symmetry; apply Z.ltb_ge; unfold len; lia).
  rewrite to_nat_len, nth_error_app2, Nat.sub_diag by lia. reflexivity.
Qed.

Lemma sliceTo_app {A} (pre rest : list A) :
  sliceTo (pre ++ rest) (len pre) = Ok pre.
Proof.
  unfold sliceTo.
  replace ((0 <=? len pre) && (len pre <=? len (pre ++ rest))) with true
    by (symmetry; apply andb_true_iff; split; apply Z.leb_le;
        rewrite ?len_app; unfold len; lia).
  rewrite to_nat_len, firstn_app, Nat.sub_diag, firstn_all. simpl.
  rewrite app_nil_r. reflexivity.
Qed.

Lemma sliceFrom_app {A} (pre mid post : list A) (n : Z) :
  n = len mid ->
  sliceFrom (pre ++ mid ++ post) (len pre + n) = Ok post.
Proof.
  intros ->. unfold sliceFrom.
  replace ((0 <=? len pre + len mid)
           && (len pre + len mid <=? len (pre ++ mid ++ post))) with true
    by (symmetry; apply andb_true_iff; split; apply Z.leb_le;
        rewrite ?len_app; unfold len; lia).
  replace (Z.to_nat (len pre + len mid)) with (length (pre ++ mid))
    by (rewrite length_app; unfold len; lia).
  rewrite app_assoc, skipn_app, skipn_all, Nat.sub_diag. reflexivity.
Qed.

Lemma skipn_len_app {A} (pre rest : list A) :
  skipn (Z.to_nat (len pre)) (pre ++ rest) = rest.
Proof.
  rewrite to_nat_len, skipn_app, skipn_all, Nat.sub_diag. reflexivity.
Qed.

Lemma at_app_hd {A} (pre rest : list A) (c : A) :
  nth_error rest 0 = Some c -> at' (pre ++ rest) (len pre) = Ok c.
Proof.
  destruct rest as [ | c' rest]; [discriminate | ].
  intros H. inversion H; subst. apply at_app.
Qed.

Lemma sliceFrom_app_skip {A} (pre rest : list A) (n : Z) :
  0 <= n <= len rest ->
  sliceFrom (pre ++ rest) (len pre + n) = Ok (skipn (Z.to_nat n) rest).
Proof.
  intros H. unfold sliceFrom.
  replace ((0 <=? len pre + n) && (len pre + n <=? len (pre ++ rest)))
    with true
    by (symmetry; apply andb_true_iff; split; apply Z.leb_le;
        rewrite ?len_app; unfold len in *; lia).
  replace (Z.to_nat (len pre + n)) with (length pre + Z.to_nat n)%nat
    by (unfold len; lia).
  rewrite skipn_app.
  replace (length pre + Z.to_nat n - length pre)%nat with (Z.to_nat n) by lia.
  rewrite skipn_all2 by lia. reflexivity.
Qed.

Lemma deleteAt_at_ampersand (e : Editor differ) (screenPoint p : point)
      (pre rest : list rune) :
  rawPointAt e screenPoint = Ok p ->
  at' (rawBuffer e) (y p) = Ok (pre ++ rest) ->
  x p = len pre ->
  nth_error rest 0 = Some (chr "&") ->
  deleteAt screenPoint e
  = (do rb <- assign (rawBuffer e) (y p)
                     (pre ++ skipn (Z.to_nat (removedWidth rest)) rest);
     redraw (setRawBuffer rb e)).
Proof.
  intros Hp Hline Hx Hamp. unfold deleteAt.
  rewrite Hp. cbn [bind]. rewrite Hx.
  replace (len pre <? 0) with false
    by (symmetry; apply Z.ltb_ge; unfold len; lia).
  rewrite Hline. cbn [bind]. rewrite (at_app_hd pre rest Hamp). cbn [bind].
  cbv zeta. rewrite !skipn_len_app, !len_app.
  replace (len pre + len rest - len pre) with (len rest) by lia.
  change (chr "&" =? chr "&") with true. cbn [andb].
  assert (Hlen : 1 <= len rest)
    by (destruct rest; [discriminate | unfold len; simpl length; lia]).
  unfold removedWidth.
  change (Z.to_nat 5) with 5%nat. change (Z.to_nat 4) with 4%nat.
  destruct ((len rest >? 5) && eqb_runes (firstn 5 rest) (runes "&amp;"))
    eqn:E5.
  { apply andb_true_iff in E5. destruct E5 as [E5 _]. apply Z.gtb_lt in E5.
    rewrite sliceTo_app. cbn [bind].
    rewrite sliceFrom_app_skip by lia. reflexivity. }
  destruct ((len rest >? 4) && eqb_runes (firstn 4 rest) (runes "&gt;"))
    eqn:E4.
  { apply andb_true_iff in E4. destruct E4 as [E4 _]. apply Z.gtb_lt in E4.
    rewrite sliceTo_app. cbn [bind].
    rewrite sliceFrom_app_skip by lia. reflexivity. }
  destruct ((len rest >? 4) && eqb_runes (firstn 4 rest) (runes "&lt;"))
    eqn:E4'.
  { apply andb_true_iff in E4'. destruct E4' as [E4' _]. apply Z.gtb_lt in E4'.
    rewrite sliceTo_app. cbn [bind].
    rewrite sliceFrom_app_skip by lia. reflexivity. }
  rewrite sliceTo_app. cbn [bind].
  rewrite sliceFrom_app_skip by lia. reflexivity.
Qed.

(** With at least one rune after it on the line, the whole escape sequence
    goes. *)
Lemma removedWidth_followed (esc post : list rune) (c : rune) :
  isEscape esc ->
  skipn (Z.to_nat (removedWidth (esc ++ c :: post))) (esc ++ c :: post)
  = c :: post.
Proof.
  intros [-> | [-> | ->] ]; unfold removedWidth.
  - assert (L : (len (runes "&amp;" ++ c :: post) >? 5) = true)
      by (apply Z.gtb_lt; unfold len; simpl length; lia).
    assert (E : eqb_runes (firstn 5 (runes "&amp;" ++ c :: post))
                          (runes "&amp;") = true) by reflexivity.
    rewrite L, E. reflexivity.
  - assert (L : (len (runes "&gt;" ++ c :: post) >? 4) = true)
      by (apply Z.gtb_lt; unfold len; simpl length; lia).
    assert (E5 : eqb_runes (firstn 5 (runes "&gt;" ++ c :: post))
                           (runes "&amp;") = false) by reflexivity.
    assert (E : eqb_runes (firstn 4 (runes "&gt;" ++ c :: post))
                          (runes "&gt;") = true) by reflexivity.
    rewrite L, E5, E, andb_false_r. reflexivity.
  - assert (L : (len (runes "&lt;" ++ c :: post) >? 4) = true)
      by (apply Z.gtb_lt; unfold len; simpl length; lia).
    assert (E5 : eqb_runes (firstn 5 (runes "&lt;" ++ c :: post))
                           (runes "&amp;") = false) by reflexivity.
    assert (E4 : eqb_runes (firstn 4 (runes "&lt;" ++ c :: post))
                           (runes "&gt;") = false) by reflexivity.
    assert (E : eqb_runes (firstn 4 (runes "&lt;" ++ c :: post))
                          (runes "&lt;") = true) by reflexivity.
    rewrite L, E5, E4, E, !andb_false_r. reflexivity.
Qed.

(** At the end of the line only the [&] goes. *)
Lemma removedWidth_at_end (esc : list rune) :
  isEscape esc -> removedWidth esc = 1.
Proof. intros [-> | [-> | ->] ]; reflexivity. Qed.

Lemma deleteAt_escape_followed (e : Editor differ) (screenPoint p : point)
      (pre esc post : list rune) (c : rune) :
  rawPointAt e screenPoint = Ok p ->
  at' (rawBuffer e) (y p) = Ok (pre ++ esc ++ c :: post) ->
  x p = len pre ->
  isEscape esc ->
  deleteAt screenPoint e
  = (do rb <- assign (rawBuffer e) (y p) (pre ++ c :: post);
     redraw (setRawBuffer rb e)).
Proof.
  intros Hp Hline Hx Hesc.
  rewrite (deleteAt_at_ampersand e screenPoint pre (esc ++ c :: post) Hp Hline Hx).
  - rewrite (removedWidth_followed post c Hesc). reflexivity.
  - destruct Hesc as [-> | [-> | ->] ]; reflexivity.
Qed.

Lemma deleteAt_escape_at_end (e : Editor differ) (screenPoint p : point)
      (pre esc : list rune) :
  rawPointAt e screenPoint = Ok p ->
  at' (rawBuffer e) (y p) = Ok (pre ++ esc) ->
  x p = len pre ->
  isEscape esc ->
  deleteAt screenPoint e
  = (do rb <- assign (rawBuffer e) (y p) (pre ++ tl esc);
     redraw (setRawBuffer rb e)).
Proof.
  intros Hp Hline Hx Hesc.
  rewrite (deleteAt_at_ampersand e screenPoint pre esc Hp Hline Hx).
  - rewrite (removedWidth_at_end Hesc).
    destruct Hesc as [-> | [-> | ->] ]; reflexivity.
  - destruct Hesc as [-> | [-> | ->] ]; reflexivity.
Qed.

End DeleteEscape.

(** ** The first iteration of [replace] *)

Lemma V1_indexLine_length (line : list rune) :
  forall ix iy next, length (snd (V1.indexLine ix iy next line)) = length line.
Proof.
  induction line as [ | r rest IH]; intros ix iy next; simpl; [reflexivity | ].
  specialize (IH next iy (next + 1)).
  destruct (V1.indexLine next iy (next + 1) rest). simpl in *. lia.
Qed.

Lemma V1_flattenLines_length (lines : list (list rune)) :
  forall ix iy n,
    length (snd (V1.flattenLines ix iy n lines))
    = length (fst (V1.flattenLines ix iy n lines)).
Proof.
  induction lines as [ | line rest IH]; intros ix iy n; simpl; [reflexivity | ].
  pose proof (V1_indexLine_length line ix iy 0) as Hl.
  destruct (V1.indexLine ix iy 0 line) as [ix' ps].
  specialize (IH ix' (iy + 1) n).
  destruct (V1.flattenLines ix' (iy + 1) n rest) as [content contentIndex].
  destruct (iy + 1 <? n); simpl in *; rewrite !length_app; simpl; lia.
Qed.

(** There the lookup of the end of a match that reaches the end of the
    buffer is out of range, as the TODO says. *)
Lemma V1_whole_buffer_match_out_of_range (contentBuffer : list (list rune))
      (p : Regex.Regexp) (m0 : nat) :
  Regex.FindStringIndex p
    (fst (V1.flattenLines 0 0 (len contentBuffer) contentBuffer))
  = Some (m0,
          length (fst (V1.flattenLines 0 0 (len contentBuffer) contentBuffer))) ->
  V1.lookups contentBuffer p = Panic IndexOutOfRange.
Proof.
  unfold V1.lookups.
  pose proof (V1_flattenLines_length contentBuffer 0 0 (len contentBuffer)) as Hl.
  destruct (V1.flattenLines 0 0 (len contentBuffer) contentBuffer)
    as [content contentIndex].
  simpl in *. intros ->.
  destruct (nth_error contentIndex m0); cbn [orPanic bind]; [ | reflexivity].
  replace (nth_error contentIndex (length content)) with (@None point)
    by (symmetry; apply nth_error_None; lia).
  reflexivity.
Qed.

Lemma V1_whole_buffer_match_example :
  V1.lookups [runes "abc"] (Regex.MustCompile (Regex.lit (runes "abc")))
  = Panic IndexOutOfRange.
Proof. reflexivity. Qed.

(** ** Undo and redo when no redraw panics

    The stacks themselves do what the claim on undo says: from a history of
    contents recorded on the undo stack, as many Ctrl-Z as there are steps
    lead back to the first content, and as many Ctrl-Y forward to the last
    one again, provided the session gets through, that is, provided no
    redraw panics on the way. *)

Section UndoRedo.

Variable differ : Differ.
Hypothesis contract : differ_contract differ.

Lemma lastContent_snoc (steps : history) :
  forall c0 cur c, lastContent c0 (steps ++ [(cur, c)]) = c.
Proof.
  induction steps as [ | [cur1 c1] rest IH]; intros; simpl; [reflexivity | ].
  apply IH.
Qed.

Lemma changing_snoc (steps : history) :
  forall c0 cur c,
    changing c0 (steps ++ [(cur, c)]) <->
    changing c0 steps /\ c <> lastContent c0 steps.
Proof.
  induction steps as [ | [cur1 c1] rest IH]; intros; simpl; [tauto | ].
  rewrite IH. tauto.
Qed.

Lemma undoEntries_snoc (steps : history) :
  forall c0 cur c,
    undoEntries differ c0 (steps ++ [(cur, c)])
    = undoEntries differ c0 steps
        ++ [mkPatch differ cur (PatchMake differ c (lastContent c0 steps))].
Proof.
  induction steps as [ | [cur1 c1] rest IH]; intros; simpl; [reflexivity | ].
  rewrite IH. reflexivity.
Qed.

Lemma redoEntries_snoc (steps : history) :
  forall c0 cur c,
    redoEntries differ c0 (steps ++ [(cur, c)])
    = mkPatch differ cur (PatchMake differ (lastContent c0 steps) c)
        :: redoEntries differ c0 steps.
Proof.
  induction steps as [ | [cur1 c1] rest IH]; intros; simpl; [reflexivity | ].
  rewrite IH. reflexivity.
Qed.

(** [redraw] only writes the screen buffer and its index. *)
Lemma redraw_only_screen (e e' : Editor differ) :
  redraw e = Ok e' ->
  e' = setScreenBuffers (screenBuffer e') (screenBufferIndex e') e.
Proof.
  unfold redraw. intros H.
  destruct (noScreen (setScreenBuffers [] [] e)).
  - inversion H; subst. destruct e; reflexivity.
  - match type of H with bind ?m _ = _ => destruct m end;
      [ | discriminate | discriminate].
    cbn [bind] in H.
    match type of H with (if ?c then _ else _) = _ => destruct c end;
      [ | discriminate].
    inversion H; subst. destruct e; reflexivity.
Qed.

Lemma Content_stringToRunes (e : Editor differ) (s : list rune) :
  Content (setRawBuffer (stringToRunes s) e) = s.
Proof. unfold Content. simpl. apply runesToString_stringToRunes. Qed.

(** Ctrl-Y when the top of the redo stack leads from the present content
    to [next]. *)
Lemma pollKey_CtrlY (fuel : nat) (shift ctrl : bool) (e : Editor differ)
      (rest : list (patch differ)) (c : point) (next : list rune) :
  redoPatches e = rest ++ [mkPatch differ c (PatchMake differ (Content e) next)] ->
  Content e <> next ->
  pollKey fuel (EventKey KeyCtrlY shift ctrl) e
  = (do e' <- redraw
                (setCursorPoint c
                   (setRawBuffer (stringToRunes next)
                      (setRedoPatches rest e)));
     Ok (Some (setUndoPatches
                 (undoPatches e'
                    ++ [mkPatch differ (cursor e)
                                (PatchMake differ next (Content e))])
                 (if selecting e' then setSelecting false e' else e')))).
Proof.
  intros Hredo Hneq.
  unfold pollKey, handleKey. rewrite Hredo, popLast_snoc.
  cbn [patches patchCursor]. fold (Content e).
  destruct (contract Hneq) as [more ->].
  cbn [at' index orPanic bind Z.ltb Z.compare Z.to_nat nth_error].
  rewrite bind_assoc.
  match goal with
  | |- bind (redraw ?X) _ = _ => destruct (redraw X) as [e1 | | ] eqn:E1
  end; cbn [bind]; try reflexivity.
  cbn [quit selectFrom]. unfold updateSelection.
  assert (Hc1 : Content e1 = next).
  { apply redraw_only_screen in E1. rewrite E1. unfold Content. simpl.
    apply runesToString_stringToRunes. }
  assert (Hne : eqb_runes next (Content e) = false)
    by (apply eqb_runes_neq; congruence).
  destruct (selecting e1) eqn:Hsel; cbn [bind]; unfold record;
    cbn [storeUndo clearRedo]; unfold Content in *; simpl rawBuffer;
    rewrite Hc1, Hne; reflexivity.
Qed.

Lemma undo_all (fuel : nat) (steps : history) :
  forall (c0 : list rune) (base : list (patch differ)) (e e' : Editor differ),
    changing c0 steps ->
    Content e = lastContent c0 steps ->
    undoPatches e = base ++ undoEntries differ c0 steps ->
    pollKeys fuel (repeat (key KeyCtrlZ) (length steps)) e = Ok (Some e') ->
    Content e' = c0
    /\ undoPatches e' = base
    /\ redoPatches e' = redoPatches e ++ redoEntries differ c0 steps.
Proof.
  induction steps as [ | [cur c] init IH] using rev_ind;
    intros c0 base e e' Hch Hcon Hundo Hrun.
  - simpl in *. inversion Hrun; subst.
    rewrite !app_nil_r in *. auto.
  - rewrite length_app, Nat.add_comm in Hrun. cbn [length Nat.add repeat] in Hrun.
    cbn [pollKeys] in Hrun.
    apply changing_snoc in Hch. destruct Hch as [Hch Hneq].
    rewrite lastContent_snoc in Hcon.
    rewrite undoEntries_snoc, app_assoc in Hundo.
    unfold key in Hrun at 1.
    rewrite <- Hcon in Hundo, Hneq.
    rewrite (@pollKey_CtrlZ differ fuel false false e _ cur _ contract Hundo
                            Hneq) in Hrun.
    match type of Hrun with
    | bind (bind (redraw ?X) _) _ = _ =>
        destruct (redraw X) as [e1 | | ] eqn:E1
    end; cbn [bind] in Hrun; try discriminate.
    apply redraw_only_screen in E1.
    rewrite redoEntries_snoc.
    set (e1' := if selecting e1 then setSelecting false e1 else e1) in *.
    assert (Hfacts : Content e1' = lastContent c0 init
                     /\ undoPatches e1' = base ++ undoEntries differ c0 init
                     /\ redoPatches e1'
                        = redoPatches e
                            ++ [mkPatch differ cur
                                        (PatchMake differ (lastContent c0 init)
                                                   (Content e))]).
    { subst e1'. destruct (selecting e1); rewrite E1; unfold Content; simpl;
        rewrite runesToString_stringToRunes; auto. }
    destruct Hfacts as (F1 & F2 & F3).
    destruct (IH c0 base e1' e' Hch F1 F2 Hrun) as (R1 & R2 & R3).
    split; [exact R1 | split; [exact R2 | ] ].
    rewrite R3, F3, Hcon, <- app_assoc. reflexivity.
Qed.

Lemma redo_all (fuel : nat) (steps : history) :
  forall (c0 : list rune) (base : list (patch differ)) (e e' : Editor differ),
    changing c0 steps ->
    Content e = c0 ->
    redoPatches e = base ++ redoEntries differ c0 steps ->
    pollKeys fuel (repeat (key KeyCtrlY) (length steps)) e = Ok (Some e') ->
    Content e' = lastContent c0 steps /\ redoPatches e' = base.
Proof.
  induction steps as [ | [cur c1] rest IH];
    intros c0 base e e' Hch Hcon Hredo Hrun.
  - simpl in *. inversion Hrun; subst. rewrite app_nil_r in *. auto.
  - cbn [length repeat pollKeys] in Hrun. simpl in Hch. destruct Hch as [Hneq Hch].
    cbn [redoEntries] in Hredo. rewrite app_assoc in Hredo.
    unfold key in Hrun at 1. rewrite <- Hcon in Hredo.
    assert (Hneq' : Content e <> c1) by congruence.
    rewrite (@pollKey_CtrlY fuel false false e _ cur c1 Hredo Hneq') in Hrun.
    match type of Hrun with
    | bind (bind (redraw ?X) _) _ = _ =>
        destruct (redraw X) as [e1 | | ] eqn:E1
    end; cbn [bind] in Hrun; try discriminate.
    apply redraw_only_screen in E1.
    match type of Hrun with
    | pollKeys _ _ ?X = _ => set (e1' := X) in *
    end.
    assert (Hfacts : Content e1' = c1
                     /\ redoPatches e1' = base ++ redoEntries differ c1 rest).
    { subst e1'. destruct (selecting e1); rewrite E1; unfold Content; simpl;
        rewrite runesToString_stringToRunes; auto. }
    destruct Hfacts as (F1 & F2).
    cbn [lastContent].
    exact (IH c1 base e1' e' Hch F1 F2 Hrun).
Qed.

(** From an editor whose undo stack ends with a history of [n] edits and
    whose content is the last one, a session of [n] Ctrl-Z and then [n]
    Ctrl-Y that gets through has the first content after the undos and the
    last content after the redos. *)
Lemma undo_redo_restore (fuel : nat) (steps : history) (c0 : list rune)
      (base : list (patch differ)) (e e1 e2 : Editor differ) :
  changing c0 steps ->
  Content e = lastContent c0 steps ->
  undoPatches e = base ++ undoEntries differ c0 steps ->
  pollKeys fuel (repeat (key KeyCtrlZ) (length steps)) e = Ok (Some e1) ->
  pollKeys fuel (repeat (key KeyCtrlY) (length steps)) e1 = Ok (Some e2) ->
  Content e1 = c0 /\ Content e2 = lastContent c0 steps.
Proof.
  intros Hch Hcon Hundo Hz Hy.
  destruct (@undo_all fuel steps c0 base e e1 Hch Hcon Hundo Hz)
    as (R1 & _ & R3).
  split; [exact R1 | ].
  exact (proj1 (@redo_all fuel steps c0 (redoPatches e) e1 e2 Hch R1 R3 Hy)).
Qed.

End UndoRedo.

(** ** Only undo and redo touch the stacks

    Every handler of the key switch but those of Ctrl-Z and Ctrl-Y leaves
    the undo and redo stacks alone: the stacks change only where
    [pollKeys] records an edit. *)

Section Stacks.

Variable differ : Differ.

(** Take a successful run of binds, conditionals and matches apart. *)
Ltac unbind :=
  repeat match goal with
         | H : bind ?m _ = Ok _ |- _ =>
             let E := fresh "E" in
             destruct m eqn:E; cbn [bind] in H; try discriminate H
         | H : (if ?c then _ else _) = Ok _ |- _ => destruct c eqn:?
         | H : match ?v with _ => _ end = Ok _ |- _ =>
             destruct v eqn:?; try discriminate H
         | H : Ok _ = Ok _ |- _ => inversion H; subst; clear H
         | H : Panic _ = Ok _ |- _ => discriminate H
         | H : OutOfFuel = Ok _ |- _ => discriminate H
         end.

Ltac conclude :=
  repeat match goal with
         | H : context [if ?c then _ else _] |- _ => destruct c
         | |- context [if ?c then _ else _] => destruct c
         end;
  cbv [stacks setScreen setRawBuffer setLineOffset setSelecting setPasteBuffer
       setCursorPoint setCursorX setCursorY] in *;
  cbn [undoPatches redoPatches] in *;
  congruence.

Lemma redraw_stacks (e e' : Editor differ) :
  redraw e = Ok e' -> stacks e' = stacks e.
Proof. intros H. apply redraw_only_screen in H. rewrite H. reflexivity. Qed.

Lemma setCursor_stacks (e e' : Editor differ) :
  setCursor e = Ok e' -> stacks e' = stacks e.
Proof. unfold setCursor. intros H. unbind; reflexivity. Qed.

Lemma scroll_stacks (d : direction) (e e' : Editor differ) :
  scroll d e = Ok e' -> stacks e' = stacks e.
Proof.
  unfold scroll. intros H. unbind; [reflexivity | ].
  apply redraw_stacks in H. exact H.
Qed.

Lemma moveCursorN_stacks (n : nat) :
  forall (d : direction) (e e' : Editor differ) (moved : bool),
    moveCursorN n d e = Ok (moved, e') -> stacks e' = stacks e.
Proof.
  induction n as [ | n IH]; intros d e e' moved H;
    destruct d; cbn [moveCursorN] in H; unbind;
    repeat match goal with
           | E : scroll _ _ = Ok _ |- _ => apply scroll_stacks in E
           | E : setCursor _ = Ok _ |- _ => apply setCursor_stacks in E
           | E : moveCursorN _ _ _ = Ok _ |- _ => apply IH in E
           end;
    conclude.
Qed.

Lemma moveCursor_stacks (d : direction) (e e' : Editor differ) (moved : bool) :
  moveCursor d e = Ok (moved, e') -> stacks e' = stacks e.
Proof. apply moveCursorN_stacks. Qed.

Lemma addLineAt_stacks (p : point) (e e' : Editor differ) :
  addLineAt p e = Ok e' -> stacks e' = stacks e.
Proof.
  unfold addLineAt. intros H.
  match type of H with bind ?m _ = _ => destruct m; [ | discriminate | discriminate] end.
  cbn [bind] in H.
  match type of H with bind ?m _ = _ => destruct m; [ | discriminate | discriminate] end.
  cbn [bind] in H. apply redraw_stacks in H. exact H.
Qed.

Lemma deleteAt_stacks (p : point) (e e' : Editor differ) :
  deleteAt p e = Ok e' -> stacks e' = stacks e.
Proof.
  unfold deleteAt. intros H.
  match type of H with bind ?m _ = _ => destruct m; [ | discriminate | discriminate] end.
  cbn [bind] in H.
  match type of H with bind ?m _ = _ => destruct m; [ | discriminate | discriminate] end.
  cbn [bind] in H. apply redraw_stacks in H. exact H.
Qed.

Lemma writeAt_stacks (rs : list rune) (p : point) (e e' : Editor differ) :
  writeAt rs p e = Ok e' -> stacks e' = stacks e.
Proof.
  unfold writeAt. intros H.
  match type of H with bind ?m _ = _ => destruct m; [ | discriminate | discriminate] end.
  cbn [bind] in H.
  match type of H with bind ?m _ = _ => destruct m; [ | discriminate | discriminate] end.
  cbn [bind] in H.
  match type of H with bind ?m _ = _ => destruct m; [ | discriminate | discriminate] end.
  cbn [bind] in H. apply redraw_stacks in H. exact H.
Qed.

Lemma Editor_replace_stacks (Q : Type)
      (query : Q -> list rune -> segment -> segment -> bool * Q)
      (fuel : nat) (raw : bool) (p : Regex.re) (repl : list rune) (q q' : Q)
      (e e' : Editor differ) :
  Editor_replace query fuel raw p repl q e = Ok (q', e') ->
  stacks e' = stacks e.
Proof.
  unfold Editor_replace. intros H.
  match type of H with bind ?m _ = _ => destruct m as [ [rs qc] | | ];
                                        [ | discriminate | discriminate] end.
  cbn [bind] in H. destruct (snd qc).
  - match type of H with bind ?m _ = _ => destruct m eqn:E;
                                          [ | discriminate | discriminate] end.
    cbn [bind] in H. inversion H; subst. apply redraw_stacks in E. exact E.
  - inversion H; subst. reflexivity.
Qed.

Ltac frames :=
  repeat match goal with
         | E : redraw _ = Ok _ |- _ => apply redraw_stacks in E
         | E : scroll _ _ = Ok _ |- _ => apply scroll_stacks in E
         | E : setCursor _ = Ok _ |- _ => apply setCursor_stacks in E
         | E : moveCursor _ _ = Ok _ |- _ => apply moveCursor_stacks in E
         | E : addLineAt _ _ = Ok _ |- _ => apply addLineAt_stacks in E
         | E : deleteAt _ _ = Ok _ |- _ => apply deleteAt_stacks in E
         | E : writeAt _ _ _ = Ok _ |- _ => apply writeAt_stacks in E
         | E : Editor_replace _ _ _ _ _ _ _ = Ok _ |- _ =>
             apply Editor_replace_stacks in E
         end.

Lemma copySelection_stacks (fuel : nat) (e e' : Editor differ) :
  copySelection fuel e = Ok e' -> stacks e' = stacks e.
Proof. unfold copySelection. intros H. unbind. frames. conclude. Qed.

Lemma removeSelection_stacks (fuel : nat) (cpy : bool) (e e' : Editor differ)
      (removed : segment * list rune) :
  removeSelection fuel cpy e = Ok (removed, e') -> stacks e' = stacks e.
Proof. unfold removeSelection. intros H. unbind. frames. conclude. Qed.

Lemma backCursor_stacks (seg : segment) (rs : list rune) (e e' : Editor differ) :
  backCursor seg rs e = Ok e' -> stacks e' = stacks e.
Proof. unfold backCursor. intros H. unbind; frames; conclude. Qed.

Lemma removeToken_stacks (fuel : nat) (p : Regex.re) (e e' : Editor differ) :
  removeToken fuel p e = Ok e' -> stacks e' = stacks e.
Proof. unfold removeToken. intros H. unbind. frames. conclude. Qed.

Lemma moveCursorUntil_stacks (fuel : nat) (dir : direction)
      (cont : Editor differ -> result bool) :
  forall e e' : Editor differ,
    moveCursorUntil fuel dir cont e = Ok e' -> stacks e' = stacks e.
Proof.
  induction fuel as [ | fuel IH]; intros e e' H; cbn [moveCursorUntil] in H;
    [discriminate | ].
  unbind; frames;
    try match goal with
        | E : moveCursorUntil _ _ _ _ = Ok _ |- _ => apply IH in E
        end;
    conclude.
Qed.

Lemma page_stacks (n : nat) (d : direction) :
  forall e e' : Editor differ, page n d e = Ok e' -> stacks e' = stacks e.
Proof.
  induction n as [ | n IH]; intros e e' H; cbn [page] in H.
  - inversion H. reflexivity.
  - unbind; frames;
      try match goal with
          | E : page _ _ _ = Ok _ |- _ => apply IH in E
          end;
      conclude.
Qed.

Lemma backspaceWord_stacks (fuel : nat) (w : bool) :
  forall e e' : Editor differ,
    backspaceWord fuel w e = Ok e' -> stacks e' = stacks e.
Proof.
  induction fuel as [ | fuel IH]; intros e e' H; cbn [backspaceWord] in H;
    [discriminate | ].
  unbind; frames;
    try match goal with
        | E : backspaceWord _ _ _ = Ok _ |- _ => apply IH in E
        end;
    conclude.
Qed.

Lemma tabFill_stacks (fuel : nat) :
  forall e e' : Editor differ, tabFill fuel e = Ok e' -> stacks e' = stacks e.
Proof.
  induction fuel as [ | fuel IH]; intros e e' H; cbn [tabFill] in H;
    unbind; frames;
    try match goal with
        | E : tabFill _ _ = Ok _ |- _ => apply IH in E
        end;
    try conclude.
Qed.

Lemma moveRight_stacks (n : nat) :
  forall e e' : Editor differ, moveRight n e = Ok e' -> stacks e' = stacks e.
Proof.
  induction n as [ | n IH]; intros e e' H; cbn [moveRight] in H.
  - inversion H. reflexivity.
  - unbind; frames;
      try match goal with
          | E : moveRight _ _ = Ok _ |- _ => apply IH in E
          end;
      conclude.
Qed.

Lemma pasteLines_stacks (lines : list (list rune)) :
  forall e e' : Editor differ,
    pasteLines lines e = Ok e' -> stacks e' = stacks e.
Proof.
  induction lines as [ | line rest IH]; intros e e' H; cbn [pasteLines] in H.
  - inversion H. reflexivity.
  - unbind; frames;
      repeat match goal with
             | E : moveRight _ _ = Ok _ |- _ => apply moveRight_stacks in E
             | E : pasteLines _ _ = Ok _ |- _ => apply IH in E
             end;
      conclude.
Qed.

Lemma arrow_stacks (fuel : nat) (d : direction) (shift ctrl : bool)
      (e e' : Editor differ) (fl : flags) :
  arrow fuel d shift ctrl e = Ok (fl, e') ->
  stacks e' = stacks e /\ storeUndo fl = true /\ clearRedo fl = true.
Proof.
  unfold arrow. intros H. unbind; frames;
    repeat match goal with
           | E : moveCursorUntil _ _ _ _ = Ok _ |- _ =>
               apply moveCursorUntil_stacks in E
           end;
    (split; [conclude | split; reflexivity]).
Qed.

Lemma handleKey_stacks (fuel : nat) (prev : list rune) (k : Key)
      (shift ctrl : bool) (e e' : Editor differ) (fl : flags) :
  isEdit (EventKey k shift ctrl) = true ->
  handleKey fuel prev k shift ctrl e = Ok (fl, e') ->
  stacks e' = stacks e /\ storeUndo fl = true /\ clearRedo fl = true.
Proof.
  intros Hk H.
  destruct k; try discriminate Hk; cbn [handleKey] in H;
    try (apply arrow_stacks in H; exact H);
    unbind; frames;
    repeat match goal with
           | E : backspaceWord _ _ _ = Ok _ |- _ => apply backspaceWord_stacks in E
           | E : removeSelection _ _ _ = Ok _ |- _ => apply removeSelection_stacks in E
           | E : backCursor _ _ _ = Ok _ |- _ => apply backCursor_stacks in E
           | E : tabFill _ _ = Ok _ |- _ => apply tabFill_stacks in E
           | E : page _ _ _ = Ok _ |- _ => apply page_stacks in E
           | E : copySelection _ _ = Ok _ |- _ => apply copySelection_stacks in E
           | E : pasteLines _ _ = Ok _ |- _ => apply pasteLines_stacks in E
           | E : removeToken _ _ _ = Ok _ |- _ => apply removeToken_stacks in E
           end;
    (split; [conclude | split; reflexivity]).
Qed.

Lemma updateSelection_stacks (fuel : nat) (selFrom : option point)
      (e e' : Editor differ) :
  updateSelection fuel selFrom e = Ok e' -> stacks e' = stacks e.
Proof.
  unfold updateSelection. intros H. unbind; frames;
    repeat match goal with
           | E : removeToken _ _ _ = Ok _ |- _ => apply removeToken_stacks in E
           end;
    conclude.
Qed.

(** An event that is neither Ctrl-Z nor Ctrl-Y empties the redo stack and,
    when it changed the content, pushes on the undo stack the patch from the
    new content back to the old one, with the old cursor. *)
Lemma pollKey_records (fuel : nat) (ev : Event) (e e' : Editor differ) :
  isEdit ev = true ->
  pollKey fuel ev e = Ok (Some e') ->
  undoPatches e'
  = undoPatches e
      ++ (if eqb_runes (Content e') (Content e) then []
          else [mkPatch differ (cursor e)
                        (PatchMake differ (Content e') (Content e))])
  /\ redoPatches e' = [].
Proof.
  intros Hev H. unfold pollKey in H.
  match type of H with
  | bind ?m _ = _ => destruct m as [ [fl e1] | | ] eqn:E1; [ | discriminate | discriminate]
  end.
  cbn [bind] in H.
  assert (F : stacks e1 = stacks e /\ storeUndo fl = true /\ clearRedo fl = true).
  { destruct ev as [width height | k shift ctrl].
    - unbind; frames. split; [conclude | split; reflexivity].
    - eapply handleKey_stacks; eassumption. }
  destruct F as (F1 & F2 & F3).
  destruct (quit fl); [discriminate | ].
  match type of H with
  | bind ?m _ = _ => destruct m as [e2 | | ] eqn:E2; [ | discriminate | discriminate]
  end.
  cbn [bind] in H. inversion H; subst e'. clear H.
  apply updateSelection_stacks in E2.
  unfold record. rewrite F2, F3. unfold Content.
  destruct (eqb_runes (runesToString (rawBuffer e2)) (runesToString (rawBuffer e)))
    eqn:Hsame;
    cbv [stacks] in *; simpl; rewrite Hsame, ?app_nil_r;
    split; try reflexivity; congruence.
Qed.

(** A session without Ctrl-Z and Ctrl-Y leaves on the undo stack one entry
    for each event that changed the content. *)
Lemma edits_build_history (fuel : nat) (evs : list Event) :
  forall e e' : Editor differ,
    forallb isEdit evs = true ->
    pollKeys fuel evs e = Ok (Some e') ->
    exists steps : history,
      (length steps <= length evs)%nat
      /\ changing (Content e) steps
      /\ Content e' = lastContent (Content e) steps
      /\ undoPatches e' = undoPatches e ++ undoEntries differ (Content e) steps.
Proof.
  induction evs as [ | ev evs IH]; intros e e' Hevs Hrun.
  - inversion Hrun; subst. exists []. simpl. rewrite app_nil_r. auto.
  - cbn [forallb] in Hevs. apply andb_true_iff in Hevs. destruct Hevs as [Hev Hevs].
    cbn [pollKeys] in Hrun.
    destruct (pollKey fuel ev e) as [ [e1 | ] | | ] eqn:E1; cbn [bind] in Hrun;
      try discriminate.
    destruct (pollKey_records _ _ _ Hev E1) as [Hundo _].
    destruct (IH e1 e' Hevs Hrun) as (steps & Hlen & Hch & Hcon & Hst).
    destruct (eqb_runes (Content e1) (Content e)) eqn:Hsame.
    + apply eqb_runes_eq in Hsame. rewrite Hsame in *. rewrite app_nil_r in Hundo.
      exists steps. rewrite Hundo in Hst. cbn [length]. auto with arith.
    + assert (Hneq : Content e1 <> Content e).
      { intros Heq. apply eqb_runes_eq in Heq. congruence. }
      exists ((cursor e, Content e1) :: steps). cbn [length changing lastContent undoEntries].
      rewrite Hst, Hundo, <- app_assoc. cbn [app].
      repeat split; auto with arith.
Qed.

Hypothesis contract : differ_contract differ.

(** A session of edits, then as many Ctrl-Z as the undo stack got entries
    and then as many Ctrl-Y: when the session gets through, the content after
    the undos is the content before the edits, and the content after the
    redos is the content after the edits. *)
Lemma edits_undo_redo (fuel : nat) (evs : list Event) (e e1 : Editor differ) :
  forallb isEdit evs = true ->
  pollKeys fuel evs e = Ok (Some e1) ->
  exists n : nat,
    (n <= length evs)%nat
    /\ length (undoPatches e1) = (length (undoPatches e) + n)%nat
    /\ forall e2 e3 : Editor differ,
        pollKeys fuel (repeat (key KeyCtrlZ) n) e1 = Ok (Some e2) ->
        pollKeys fuel (repeat (key KeyCtrlY) n) e2 = Ok (Some e3) ->
        Content e2 = Content e /\ Content e3 = Content e1.
Proof.
  intros Hevs Hrun.
  destruct (edits_build_history _ _ _ Hevs Hrun) as (steps & Hlen & Hch & Hcon & Hst).
  exists (length steps). split; [exact Hlen | ]. split.
  - rewrite Hst, length_app. f_equal.
    clear. generalize (Content e). induction steps as [ | [c s] steps IH];
      intros c0; simpl; [reflexivity | rewrite IH; reflexivity].
  - intros e2 e3 Hz Hy. rewrite Hcon.
    exact (@undo_redo_restore differ contract fuel steps (Content e)
                              (undoPatches e) e1 e2 e3 Hch Hcon Hst Hz Hy).
Qed.

End Stacks.

(** On a display of 80 by 24, typing [ab] into the empty buffer and taking
    it back: the session gets through, two Ctrl-Z lead to the empty content
    and two Ctrl-Y back to [ab]. *)
Example type_undo_redo_80x24 :
  let typing := [key (KeyRune (chr "a")); key (KeyRune (chr "b"))] in
  let undos := repeat (key KeyCtrlZ) 2 in
  let redos := repeat (key KeyCtrlY) 2 in
  option_map (@Content wholeText)
             (match Edit wholeText 8 (80, 24) typing [] with
              | Ok r => r | _ => None end)
  = Some (runes "ab")
  /\ option_map (@Content wholeText)
                (match Edit wholeText 8 (80, 24) (typing ++ undos) [] with
                 | Ok r => r | _ => None end)
     = Some []
  /\ option_map (@Content wholeText)
                (match Edit wholeText 8 (80, 24) (typing ++ undos ++ redos) [] with
                 | Ok r => r | _ => None end)
     = Some (runes "ab").
Proof. vm_compute. repeat split. Qed.

(** ** The bound on the calls of [moveCursor]

    [moveCursor] calls itself after a scroll that lowers a positive line
    offset, so the line offset bounds the depth of the calls: with a
    display, the fuel that [moveCursor] starts with is never used up. *)

Section MoveCursorFuel.

Variable differ : Differ.

Lemma orPanic_returns {A} (o : option A) (why : panic) :
  orPanic o why <> OutOfFuel.
Proof. destruct o; discriminate. Qed.

Lemma lineWidth_returns (e : Editor differ) (y0 : Z) :
  lineWidth e y0 <> OutOfFuel.
Proof.
  unfold lineWidth. destruct (y0 + lineOffset e <? len (screenBuffer e));
    [ | discriminate].
  destruct (index (screenBuffer e) (y0 + lineOffset e)); discriminate.
Qed.

Lemma cursorLineLen_returns (e : Editor differ) :
  cursorLineLen e <> OutOfFuel.
Proof.
  unfold cursorLineLen.
  destruct (index (screenBuffer e) (y (cursor e) + lineOffset e)); discriminate.
Qed.

Lemma canMoveCursor_returns (e : Editor differ) (d : direction) :
  canMoveCursor e d <> OutOfFuel.
Proof.
  destruct d; simpl; try discriminate.
  destruct (x (cursor e) + 1 <? fst (Screen e)); [ | discriminate].
  pose proof (lineWidth_returns e (y (cursor e))) as H.
  destruct (lineWidth e (y (cursor e))); [discriminate | discriminate | ].
  contradiction.
Qed.

Lemma redraw_returns (e : Editor differ) : redraw e <> OutOfFuel.
Proof.
  unfold redraw. destruct (noScreen (setScreenBuffers [] [] e)); [discriminate | ].
  match goal with |- bind (orPanic ?o _) _ <> _ => destruct o end;
    cbn [orPanic bind]; [ | discriminate].
  match goal with |- (if ?c then _ else _) <> _ => destruct c end; discriminate.
Qed.

Lemma setCursor_returns (e : Editor differ) : setCursor e <> OutOfFuel.
Proof.
  unfold setCursor. destruct (noScreen e); [discriminate | ].
  match goal with
  | |- bind (lineWidth ?e0 ?y0) _ <> _ =>
      pose proof (lineWidth_returns e0 y0) as H; destruct (lineWidth e0 y0)
  end; cbn [bind]; [discriminate | discriminate | contradiction].
Qed.

Lemma scroll_returns (e : Editor differ) (d : direction) :
  scroll d e <> OutOfFuel.
Proof.
  unfold scroll. destruct (noScreen e); [discriminate | apply redraw_returns].
Qed.

Lemma limitInt_upper (i minInc maxExc : Z) :
  minInc <= i -> limitInt i minInc maxExc <= i.
Proof.
  intros H. unfold limitInt.
  replace (i <? minInc) with false by (symmetry; apply Z.ltb_ge; lia).
  destruct (i >=? maxExc) eqn:E; [apply Z.geb_le in E; lia | lia].
Qed.

(** A scroll up from a positive line offset lowers it and keeps the
    display. *)
Lemma scroll_up_lowers (e e1 : Editor differ) :
  noScreen e = false -> lineOffset e > 0 -> scroll up e = Ok e1 ->
  noScreen e1 = false /\ lineOffset e1 <= lineOffset e - 1.
Proof.
  intros Hs Hlo H. unfold scroll in H. rewrite Hs in H.
  apply redraw_only_screen in H. rewrite H. unfold noScreen in *. simpl.
  split; [exact Hs | ]. apply limitInt_upper. lia.
Qed.

Lemma after_body_returns (r : result (bool * Editor differ)) :
  r <> OutOfFuel ->
  (do (moved, e1) <- r; do e2 <- setCursor e1; Ok (moved, e2)) <> OutOfFuel.
Proof.
  intros H. destruct r as [ [moved e1] | | ]; cbn [bind];
    [ | discriminate | contradiction].
  pose proof (setCursor_returns e1) as H1.
  destruct (setCursor e1); cbn [bind]; [discriminate | discriminate | contradiction].
Qed.

Lemma moveCursorN_returns (n : nat) :
  forall (d : direction) (e : Editor differ),
    noScreen e = false -> lineOffset e <= Z.of_nat n ->
    moveCursorN n d e <> OutOfFuel.
Proof.
  induction n as [ | n IH]; intros d e Hs Hlo;
    (destruct d; cbn [moveCursorN]; apply after_body_returns).
  all: try (pose proof (canMoveCursor_returns e up) as H1;
            destruct (canMoveCursor e up) as [ [ | ] | | ]; cbn [bind];
            try discriminate; try contradiction;
            destruct (canScroll e up); try discriminate;
            pose proof (scroll_returns e up) as H2;
            destruct (scroll up e); cbn [bind];
            try discriminate; contradiction).
  all: try (pose proof (canMoveCursor_returns e down) as H1;
            destruct (canMoveCursor e down) as [ [ | ] | | ]; cbn [bind];
            try discriminate; try contradiction;
            destruct (canScroll e down); try discriminate;
            pose proof (scroll_returns e down) as H2;
            destruct (scroll down e); cbn [bind];
            try discriminate; contradiction).
  all: try (pose proof (canMoveCursor_returns e right) as H1;
            destruct (canMoveCursor e right) as [ [ | ] | | ]; cbn [bind];
            try discriminate; try contradiction;
            pose proof (canMoveCursor_returns e down) as H2;
            destruct (canMoveCursor e down) as [ [ | ] | | ]; cbn [bind];
            try discriminate; try contradiction;
            match goal with |- (if ?c then _ else _) <> _ => destruct c end;
            try discriminate;
            pose proof (scroll_returns e down) as H3;
            destruct (scroll down e); cbn [bind];
            try discriminate; contradiction).
  - (* left, no fuel: a scroll would need a positive line offset *)
    pose proof (canMoveCursor_returns e left) as H1.
    destruct (canMoveCursor e left) as [ [ | ] | | ]; cbn [bind];
      try discriminate; try contradiction.
    pose proof (canMoveCursor_returns e up) as H2.
    destruct (canMoveCursor e up) as [ [ | ] | | ]; cbn [bind];
      try discriminate; try contradiction.
    + match goal with
      | |- bind (cursorLineLen ?e0) _ <> _ =>
          pose proof (cursorLineLen_returns e0) as H3;
          destruct (cursorLineLen e0)
      end; cbn [bind]; try discriminate; contradiction.
    + destruct (canScroll e up) eqn:Hcan; [ | discriminate].
      unfold canScroll in Hcan. apply Z.gtb_lt in Hcan. simpl in Hlo. lia.
  - (* left, with fuel *)
    pose proof (canMoveCursor_returns e left) as H1.
    destruct (canMoveCursor e left) as [ [ | ] | | ]; cbn [bind];
      try discriminate; try contradiction.
    pose proof (canMoveCursor_returns e up) as H2.
    destruct (canMoveCursor e up) as [ [ | ] | | ]; cbn [bind];
      try discriminate; try contradiction.
    + match goal with
      | |- bind (cursorLineLen ?e0) _ <> _ =>
          pose proof (cursorLineLen_returns e0) as H3;
          destruct (cursorLineLen e0)
      end; cbn [bind]; try discriminate; contradiction.
    + destruct (canScroll e up) eqn:Hcan; [ | discriminate].
      unfold canScroll in Hcan. apply Z.gtb_lt in Hcan.
      pose proof (scroll_returns e up) as H3.
      destruct (scroll up e) as [e1 | | ] eqn:E1; cbn [bind];
        try discriminate; try contradiction.
      pose proof (cursorLineLen_returns e1) as H4.
      destruct (cursorLineLen e1) as [w | | ]; cbn [bind];
        try discriminate; try contradiction.
      destruct (scroll_up_lowers e Hs ltac:(lia) E1) as [Hs1 Hlo1].
      apply IH; [exact Hs1 | simpl; lia].
Qed.

Lemma moveCursor_returns (d : direction) (e : Editor differ) :
  noScreen e = false -> moveCursor d e <> OutOfFuel.
Proof.
  intros Hs. unfold moveCursor. apply moveCursorN_returns; [exact Hs | lia].
Qed.

End MoveCursorFuel.
